(** * The job queue of [lib/modules/queue.js] (class [JobQueue])

    A shallow embedding of the in-memory job queue: the job store (a
    JavaScript [Map], which iterates in insertion order), the scheduler
    ([getNextJob]), the worker loop ([start], [startWorker]), the execution
    guard ([executeJob] with [completeJob], [retryJob], [failJob]), the
    listing and housekeeping operations ([getJobs], [remove], [clean]), the
    statistics ([updateStats], [getStats]) and the registry of queues with
    its commands.

    Conventions.
    - JavaScript numbers that hold timestamps, priorities, delays and
      percentages are integers here ([Z]); the counters [attempts] and
      [maxRetries], the number of workers and the [limit] of a listing are
      counts ([nat]).
    - [Date.now()] is an explicit argument [now] of every operation that
      reads the clock; an operation that reads it several times in one
      synchronous run takes one reading. Nothing makes a later reading
      greater than an earlier one: the clock of the machine may be set
      back.
    - [generateJobId] draws 16 random bytes; the identifier it returns is an
      explicit argument [newId] of [add].
    - The processing functions registered with [process] and the timers are
      outside the queue: the result of racing a processor against the job's
      timeout is an [Outcome] handed to [executeJob].
    - An [async] method runs inside the call up to its first [await];
      [getNextJob] has none, so a call of it is one synchronous piece. The
      methods are modelled as they are when they return.
    - Console output and emitted events have no effect on the state and are
      left out; listeners are taken to return. *)

From Stdlib Require Import ZArith List String Bool Arith Lia.
From Stdlib Require Import Sorted Permutation DecimalString.
Import ListNotations.
Local Open Scope string_scope.
Local Open Scope list_scope.
Local Open Scope Z_scope.

Set Implicit Arguments.

(** ** JavaScript [Map]: an association list in insertion order *)

Abbreviation JsMap V := (list (string * V)) (only parsing).

Section JsMap.
Variable V : Type.

Fixpoint map_get (k : string) (m : JsMap V) : option V :=
  match m with
  | [] => None
  | (k', v) :: m' => if String.eqb k k' then Some v else map_get k m'
  end.

Definition map_has (k : string) (m : JsMap V) : bool :=
  match map_get k m with Some _ => true | None => false end.

(** [set] keeps the position of a key that is present and appends a new one. *)
Fixpoint map_set (k : string) (v : V) (m : JsMap V) : JsMap V :=
  match m with
  | [] => [(k, v)]
  | (k', v') :: m' =>
      if String.eqb k k' then (k', v) :: m' else (k', v') :: map_set k v m'
  end.

Definition map_delete (k : string) (m : JsMap V) : JsMap V :=
  filter (fun kv => negb (String.eqb k (fst kv))) m.

Definition map_keys (m : JsMap V) : list string := map fst m.
Definition map_values (m : JsMap V) : list V := map snd m.
Definition map_size (m : JsMap V) : nat := List.length m.
End JsMap.

(** ** Data model *)

(** Job payloads and results are opaque to the queue; a structured value is
    kept as its JSON text. *)
Inductive JsValue : Type :=
| JsUndefined
| JsNull
| JsBool (b : bool)
| JsNum (n : Z)
| JsStr (s : string)
| JsObj (json : string).

Inductive Status : Type := waiting | active | completed | failed.

Definition Status_eqb (a b : Status) : bool :=
  match a, b with
  | waiting, waiting | active, active
  | completed, completed | failed, failed => true
  | _, _ => false
  end.

(** The [error] of a job holds the message it was given as text; it is
    [None] while the field is [null] or [undefined]. *)
Record Job : Type := mkJob {
  id : string;
  type : string;
  data : JsValue;
  priority : Z;
  delay : Z;
  maxRetries : nat;
  timeout : Z;
  status : Status;
  attempts : nat;
  createdAt : Z;
  processAt : Z;
  updatedAt : Z;
  result : JsValue;
  error : option string;
  progress : Z;
  logs : list (Z * string);
  startedAt : option Z;
  completedAt : option Z;
  failedAt : option Z;
  processingTime : option Z
}.

(** The [options] argument of [add]; [None] is an absent key. *)
Module Opt.
Record t : Type := mk {
  priority : option Z;
  delay : option Z;
  maxRetries : option nat;
  timeout : option Z
}.
Definition empty : t := mk None None None None.
End Opt.

(** [this.config]. The [redis] entry is never read and is left out. *)
Module Cfg.
Record t : Type := mk {
  name : string;
  maxRetries : nat;
  retryDelay : Z;
  concurrency : nat;
  timeout : Z;
  cleanupInterval : Z
}.

(** The [config] argument of the constructor; [None] is an absent key. *)
Record input : Type := mkInput {
  i_name : option string;
  i_maxRetries : option nat;
  i_retryDelay : option Z;
  i_concurrency : option nat;
  i_timeout : option Z;
  i_cleanupInterval : option Z
}.
Definition no_input : input := mkInput None None None None None None.
End Cfg.

Record Stats : Type := mkStats {
  totalJobs : Z;
  completedJobs : Z;
  failedJobs : Z;
  activeJobs : Z;
  waitingJobs : Z;
  delayedJobs : Z
}.

(** A registered processing function is external; the queue only tests
    whether a job type has one. *)
Definition Processor : Type := unit.

(** Of the worker records in [this.workers] the queue state keeps what
    decides the workers' calls: [currentJobs] lists the keys of the jobs that
    a worker's loop has been given by [getNextJob] and has not yet seen
    through [executeJob] (the loop's [job], which [worker.currentJob]
    names). *)
Record JobQueue : Type := mkQueue {
  config : Cfg.t;
  jobs : JsMap Job;
  processors : JsMap Processor;
  stats : Stats;
  isRunning : bool;
  currentJobs : list string
}.

(** ** JavaScript operators used by the queue *)

(** [a || b] on an optional number: [undefined] and [0] are falsy. *)
Definition or_Z (a : option Z) (b : Z) : Z :=
  match a with
  | Some v => if v =? 0 then b else v
  | None => b
  end.

Definition or_nat (a : option nat) (b : nat) : nat :=
  match a with
  | Some (S n) => S n
  | _ => b
  end.

Definition or_string (a : option string) (b : string) : string :=
  match a with
  | Some EmptyString => b
  | Some s => s
  | None => b
  end.

(** [{ key: base, ...config }]: a key present in [config] wins. *)
Definition spread (A : Type) (base : A) (over : option A) : A :=
  match over with Some v => v | None => base end.

(** Decimal rendering of a number inside a template string. *)
Definition show_Z (z : Z) : string := NilZero.string_of_int (Z.to_int z).

(** ** Constructor *)

Definition newJobQueue (c : Cfg.input) : JobQueue :=
  {| config :=
       {| Cfg.name := spread (or_string (Cfg.i_name c) "default") (Cfg.i_name c);
          Cfg.maxRetries := spread (or_nat (Cfg.i_maxRetries c) 3) (Cfg.i_maxRetries c);
          Cfg.retryDelay := spread (or_Z (Cfg.i_retryDelay c) 5000) (Cfg.i_retryDelay c);
          Cfg.concurrency := spread (or_nat (Cfg.i_concurrency c) 4) (Cfg.i_concurrency c);
          Cfg.timeout := spread (or_Z (Cfg.i_timeout c) 300000) (Cfg.i_timeout c);
          Cfg.cleanupInterval :=
            spread (or_Z (Cfg.i_cleanupInterval c) 3600000) (Cfg.i_cleanupInterval c) |};
     jobs := [];
     processors := [];
     stats := mkStats 0 0 0 0 0 0;
     isRunning := false;
     currentJobs := [] |}.

(** ** Statistics *)

Definition count (f : Job -> bool) (l : list Job) : Z :=
  Z.of_nat (List.length (filter f l)).

Definition has_status (s : Status) (j : Job) : bool := Status_eqb (status j) s.

Definition is_delayed (now : Z) (j : Job) : bool :=
  has_status waiting j && (now <? processAt j).

Definition set_stats (q : JobQueue) (s : Stats) : JobQueue :=
  {| config := config q; jobs := jobs q; processors := processors q;
     stats := s; isRunning := isRunning q;
     currentJobs := currentJobs q |}.

Definition set_jobs (q : JobQueue) (m : JsMap Job) : JobQueue :=
  {| config := config q; jobs := m; processors := processors q;
     stats := stats q; isRunning := isRunning q;
     currentJobs := currentJobs q |}.

Definition updateStats (q : JobQueue) (now : Z) : JobQueue :=
  let js := map_values (jobs q) in
  set_stats q
    {| totalJobs := totalJobs (stats q);
       completedJobs := count (has_status completed) js;
       failedJobs := count (has_status failed) js;
       activeJobs := count (has_status active) js;
       waitingJobs := count (has_status waiting) js;
       delayedJobs := count (is_delayed now) js |}.

(** ** Job store: [add], [process], [getJob] *)

(** [add] up to the emission of [job:added]: the job record, the map and
    the counters. The last lines of [add], which start a queue that is not
    running, follow the worker loop below. *)
Definition enqueue (q : JobQueue) (newId jobType : string) (payload : JsValue)
    (options : Opt.t) (now : Z) : Job * JobQueue :=
  let job :=
    {| id := newId;
       type := jobType;
       data := payload;
       priority := or_Z (Opt.priority options) 0;
       delay := or_Z (Opt.delay options) 0;
       maxRetries := or_nat (Opt.maxRetries options) (Cfg.maxRetries (config q));
       timeout := or_Z (Opt.timeout options) (Cfg.timeout (config q));
       status := waiting;
       attempts := 0%nat;
       createdAt := now;
       processAt := now + or_Z (Opt.delay options) 0;
       updatedAt := now;
       result := JsNull;
       error := None;
       progress := 0;
       logs := [];
       startedAt := None;
       completedAt := None;
       failedAt := None;
       processingTime := None |} in
  let st := stats q in
  (job,
   {| config := config q;
      jobs := map_set (id job) job (jobs q);
      processors := processors q;
      stats :=
        {| totalJobs := totalJobs st + 1;
           completedJobs := completedJobs st;
           failedJobs := failedJobs st;
           activeJobs := activeJobs st;
           waitingJobs := waitingJobs st + 1;
           delayedJobs := if 0 <? delay job then delayedJobs st + 1 else delayedJobs st |};
      isRunning := isRunning q;
     currentJobs := currentJobs q |}).

(** The timer that [add] arms for a delayed job, when it fires. *)
Definition delayTimer (q : JobQueue) (jobId : string) : JobQueue :=
  match map_get jobId (jobs q) with
  | Some currentJob =>
      if has_status waiting currentJob then
        let st := stats q in
        set_stats q
          {| totalJobs := totalJobs st; completedJobs := completedJobs st;
             failedJobs := failedJobs st; activeJobs := activeJobs st;
             waitingJobs := waitingJobs st; delayedJobs := delayedJobs st - 1 |}
      else q
  | None => q
  end.

(** [process] up to [this.processors.set(jobType, processor)]. *)
Definition register (q : JobQueue) (jobType : string) : JobQueue :=
  {| config := config q; jobs := jobs q;
     processors := map_set jobType tt (processors q);
     stats := stats q; isRunning := isRunning q;
     currentJobs := currentJobs q |}.

(** [this.isRunning = true] *)
Definition raise (q : JobQueue) : JobQueue :=
  {| config := config q; jobs := jobs q; processors := processors q;
     stats := stats q; isRunning := true; currentJobs := currentJobs q |}.

Definition stop (q : JobQueue) : JobQueue :=
  {| config := config q; jobs := jobs q; processors := processors q;
     stats := stats q; isRunning := false; currentJobs := currentJobs q |}.

Definition getJob (q : JobQueue) (jobId : string) : option Job :=
  map_get jobId (jobs q).

(** ** Listing: [getJobs] *)

(** The comparator handed to [Array.prototype.sort]. *)
Definition compareJobs (a b : Job) : Z :=
  if negb (priority a =? priority b) then priority b - priority a
  else createdAt a - createdAt b.

(** [Array.prototype.sort] is stable: with a comparator that is a total
    preorder its result is the one stable ordering, computed here by
    insertion from the right. *)
Fixpoint sort_insert (x : Job) (l : list Job) : list Job :=
  match l with
  | [] => [x]
  | y :: l' => if compareJobs x y <=? 0 then x :: y :: l' else y :: sort_insert x l'
  end.

Definition js_sort (l : list Job) : list Job := fold_right sort_insert [] l.

(** [status] is [None] for [null] (the default) and the empty string, which
    are falsy; [limit] defaults to 50 at the call. *)
Definition getJobs (q : JobQueue) (st : option Status) (limit : nat) : list Job :=
  let all := map_values (jobs q) in
  let filtered :=
    match st with
    | Some s => filter (has_status s) all
    | None => all
    end in
  firstn limit (js_sort filtered).

(** ** Housekeeping: [remove], [clean] *)

Definition remove (q : JobQueue) (jobId : string) (now : Z) : bool * JobQueue :=
  match map_get jobId (jobs q) with
  | None => (false, q)
  | Some job =>
      if has_status active job then (false, q)
      else (true, updateStats (set_jobs q (map_delete jobId (jobs q))) now)
  end.

Definition is_old_terminal (cutoff : Z) (job : Job) : bool :=
  (has_status completed job || has_status failed job) && (updatedAt job <? cutoff).

(** The [for ... of this.jobs] loop: entries are visited in insertion order
    and deleting the visited entry does not disturb the traversal. The loop
    state is the map and the counter [cleaned]. *)
Definition clean_body (cutoff : Z) (acc : JsMap Job * nat) (entry : string * Job)
    : JsMap Job * nat :=
  if is_old_terminal cutoff (snd entry)
  then (map_delete (fst entry) (fst acc), S (snd acc))
  else acc.

Definition clean (q : JobQueue) (olderThan : Z) (now : Z) : nat * JobQueue :=
  let cutoff := now - olderThan in
  let '(m, cleaned) := fold_left (clean_body cutoff) (jobs q) (jobs q, 0%nat) in
  (cleaned,
   if (0 <? cleaned)%nat then updateStats (set_jobs q m) now else set_jobs q m).

(** The default argument of [clean]: 24 hours. *)
Definition clean_default : Z := 24 * 60 * 60 * 1000.

(** ** Statistics view: [getStats] *)

Record StatsView : Type := mkView {
  view : Stats;
  avgProcessingTime : Z;
  totalJobsInMemory : nat;
  view_isRunning : bool;
  workers : nat;
  view_processors : list string
}.

Definition truthy_time (t : option Z) : bool :=
  match t with Some v => negb (v =? 0) | None => false end.

(** [Math.round] of the quotient [total / n] of integers, [n > 0]:
    rounding half up. *)
Definition round_div (total : Z) (n : Z) : Z := (2 * total + n) / (2 * n).

Definition getStats (q : JobQueue) (now : Z) : StatsView * JobQueue :=
  let q' := updateStats q now in
  let processingTimes :=
    map (fun job => match processingTime job with Some t => t | None => 0 end)
      (filter (fun job => has_status completed job && truthy_time (processingTime job))
         (map_values (jobs q'))) in
  let n := Z.of_nat (List.length processingTimes) in
  let avg := if 0 <? n then round_div (fold_left Z.add processingTimes 0) n else 0 in
  ({| view := stats q';
      avgProcessingTime := avg;
      totalJobsInMemory := map_size (jobs q');
      view_isRunning := isRunning q';
      workers := Cfg.concurrency (config q');
      view_processors := map_keys (processors q') |},
   q').

(** ** Scheduler: [getNextJob] *)

Definition ready (now : Z) (job : Job) : bool :=
  has_status waiting job && (processAt job <=? now).

(** [job.priority > highestPriority], where [None] is [-Infinity]. *)
Definition above (p : Z) (highestPriority : option Z) : bool :=
  match highestPriority with
  | None => true
  | Some h => h <? p
  end.

(** One turn of the scan; the loop state is [(nextJob, highestPriority)].
    The entry's key is kept with the job so that the claim below updates the
    object the scan found. *)
Definition scan_body (now : Z) (acc : option (string * Job) * option Z)
    (entry : string * Job) : option (string * Job) * option Z :=
  if ready now (snd entry) then
    if above (priority (snd entry)) (snd acc)
    then (Some entry, Some (priority (snd entry)))
    else acc
  else acc.

Definition scan (now : Z) (m : JsMap Job) : option (string * Job) :=
  fst (fold_left (scan_body now) m (None, None)).

Definition claim (job : Job) (now : Z) : Job :=
  {| id := id job; type := type job; data := data job; priority := priority job;
     delay := delay job; maxRetries := maxRetries job; timeout := timeout job;
     status := active;
     attempts := attempts job; createdAt := createdAt job;
     processAt := processAt job;
     updatedAt := now;
     result := result job; error := error job; progress := progress job;
     logs := logs job;
     startedAt := Some now;
     completedAt := completedAt job; failedAt := failedAt job;
     processingTime := processingTime job |}.

Definition getNextJob (q : JobQueue) (now : Z) : option Job * JobQueue :=
  match scan now (jobs q) with
  | Some (key, nextJob) =>
      let st := stats q in
      (Some (claim nextJob now),
       {| config := config q;
          jobs := map_set key (claim nextJob now) (jobs q);
          processors := processors q;
          stats :=
            {| totalJobs := totalJobs st; completedJobs := completedJobs st;
               failedJobs := failedJobs st;
               activeJobs := activeJobs st + 1;
               waitingJobs := waitingJobs st - 1;
               delayedJobs := delayedJobs st |};
          isRunning := isRunning q;
     currentJobs := currentJobs q |})
  | None => (None, q)
  end.

(** ** Execution guard: [executeJob], [completeJob], [failJob], [retryJob] *)

(** [a - b] where [b] may be [undefined]; the [NaN] that results is [None]. *)
Definition since (now : Z) (start : option Z) : option Z :=
  match start with Some s => Some (now - s) | None => None end.

Definition completeJob_job (job : Job) (value : JsValue) (now : Z) : Job :=
  {| id := id job; type := type job; data := data job; priority := priority job;
     delay := delay job; maxRetries := maxRetries job; timeout := timeout job;
     status := completed;
     attempts := attempts job; createdAt := createdAt job;
     processAt := processAt job;
     updatedAt := now;
     result := value;
     error := error job;
     progress := 100;
     logs := logs job; startedAt := startedAt job;
     completedAt := Some now;
     failedAt := failedAt job;
     processingTime := since now (startedAt job) |}.

Definition failJob_job (job : Job) (message : option string) (now : Z) : Job :=
  {| id := id job; type := type job; data := data job; priority := priority job;
     delay := delay job; maxRetries := maxRetries job; timeout := timeout job;
     status := failed;
     attempts := attempts job; createdAt := createdAt job;
     processAt := processAt job;
     updatedAt := now;
     result := result job;
     error := message;
     progress := progress job; logs := logs job; startedAt := startedAt job;
     completedAt := completedAt job;
     failedAt := Some now;
     processingTime := since now (startedAt job) |}.

(** [Math.pow(2, job.attempts - 1)] is read after [job.attempts++], so the
    exponent is never negative. *)
Definition backoff (retryDelay : Z) (attemptsAfter : nat) : Z :=
  retryDelay * 2 ^ (Z.of_nat attemptsAfter - 1).

Definition retryJob_job (retryDelay : Z) (job : Job) (message : option string)
    (now : Z)
    : Job :=
  {| id := id job; type := type job; data := data job; priority := priority job;
     delay := delay job; maxRetries := maxRetries job; timeout := timeout job;
     status := waiting;
     attempts := S (attempts job);
     createdAt := createdAt job;
     processAt := now + backoff retryDelay (S (attempts job));
     updatedAt := now;
     result := result job;
     error := message;
     progress := progress job; logs := logs job; startedAt := startedAt job;
     completedAt := completedAt job; failedAt := failedAt job;
     processingTime := processingTime job |}.

(** The three settlements write the job object, which the map shares, and
    move one unit between two counters. *)
Definition completeJob (q : JobQueue) (key : string) (job : Job) (value : JsValue)
    (now : Z) : JobQueue :=
  let st := stats q in
  {| config := config q;
     jobs := map_set key (completeJob_job job value now) (jobs q);
     processors := processors q;
     stats :=
       {| totalJobs := totalJobs st;
          completedJobs := completedJobs st + 1;
          failedJobs := failedJobs st;
          activeJobs := activeJobs st - 1;
          waitingJobs := waitingJobs st; delayedJobs := delayedJobs st |};
     isRunning := isRunning q;
     currentJobs := currentJobs q |}.

Definition failJob (q : JobQueue) (key : string) (job : Job)
    (message : option string) (now : Z) : JobQueue :=
  let st := stats q in
  {| config := config q;
     jobs := map_set key (failJob_job job message now) (jobs q);
     processors := processors q;
     stats :=
       {| totalJobs := totalJobs st; completedJobs := completedJobs st;
          failedJobs := failedJobs st + 1;
          activeJobs := activeJobs st - 1;
          waitingJobs := waitingJobs st; delayedJobs := delayedJobs st |};
     isRunning := isRunning q;
     currentJobs := currentJobs q |}.

Definition retryJob (q : JobQueue) (key : string) (job : Job)
    (message : option string) (now : Z) : JobQueue :=
  let st := stats q in
  {| config := config q;
     jobs := map_set key (retryJob_job (Cfg.retryDelay (config q)) job message now)
               (jobs q);
     processors := processors q;
     stats :=
       {| totalJobs := totalJobs st; completedJobs := completedJobs st;
          failedJobs := failedJobs st;
          activeJobs := activeJobs st - 1;
          waitingJobs := waitingJobs st + 1;
          delayedJobs := delayedJobs st |};
     isRunning := isRunning q;
     currentJobs := currentJobs q |}.

(** What [Promise.race([processor(jobContext), createTimeout(job.timeout)])]
    settles to, as far as the queue reads it. The race resolves with a
    value or rejects with a reason, of which the catch block reads
    [error.message]:
    - [Rejected message] is a reason other than [null] and [undefined],
      [message] being its [message] as text, [None] where it has none (an
      [Error] has one; the string of [throw "boom"] has none);
    - [RejectedNullish] is the reason [null] or [undefined], on which the
      reading of [error.message] throws a [TypeError];
    - [TimedOut] is the rejection by [createTimeout]. *)
Inductive Outcome : Type :=
| Resolved (value : JsValue)
| Rejected (message : option string)
| RejectedNullish
| TimedOut.

Definition timeout_message (job : Job) : string :=
  ("Job timeout after " ++ show_Z (timeout job) ++ "ms")%string.

Definition no_processor_message (job : Job) : string :=
  ("No processor found for job type: " ++ type job)%string.

(** [executeJob(job, worker)]: the worker passes the job object it claimed;
    the map holds the same object under [key]. The processor is called
    exactly when one is registered for the job's type. On [RejectedNullish]
    the first line of the catch block throws, before anything is written:
    the promise of [executeJob] rejects and the queue is as it was. *)
Definition executeJob (q : JobQueue) (key : string) (o : Outcome) (now : Z)
    : JobQueue :=
  match map_get key (jobs q) with
  | None => q
  | Some job =>
      if negb (map_has (type job) (processors q)) then
        failJob q key job (Some (no_processor_message job)) now
      else
        match o with
        | Resolved value => completeJob q key job value now
        | Rejected message =>
            if (attempts job <? maxRetries job)%nat
            then retryJob q key job message now
            else failJob q key job message now
        | RejectedNullish => q
        | TimedOut =>
            if (attempts job <? maxRetries job)%nat
            then retryJob q key job (Some (timeout_message job)) now
            else failJob q key job (Some (timeout_message job)) now
        end
  end.

(** Whether the promise of [executeJob] rejects. *)
Definition executeJob_throws (q : JobQueue) (key : string) (o : Outcome) : bool :=
  match o with
  | RejectedNullish =>
      match map_get key (jobs q) with
      | Some job => map_has (type job) (processors q)
      | None => false
      end
  | _ => false
  end.

(** The side channels of the job context: [log] and [progress]. *)
Definition logJob_job (job : Job) (message : string) (now : Z) : Job :=
  {| id := id job; type := type job; data := data job; priority := priority job;
     delay := delay job; maxRetries := maxRetries job; timeout := timeout job;
     status := status job; attempts := attempts job; createdAt := createdAt job;
     processAt := processAt job; updatedAt := updatedAt job;
     result := result job; error := error job; progress := progress job;
     logs := logs job ++ [(now, message)];
     startedAt := startedAt job; completedAt := completedAt job;
     failedAt := failedAt job; processingTime := processingTime job |}.

Definition updateJobProgress_job (job : Job) (percent : Z) (now : Z) : Job :=
  {| id := id job; type := type job; data := data job; priority := priority job;
     delay := delay job; maxRetries := maxRetries job; timeout := timeout job;
     status := status job; attempts := attempts job; createdAt := createdAt job;
     processAt := processAt job;
     updatedAt := now;
     result := result job; error := error job;
     progress := Z.max 0 (Z.min 100 percent);
     logs := logs job;
     startedAt := startedAt job; completedAt := completedAt job;
     failedAt := failedAt job; processingTime := processingTime job |}.

Definition write_job (q : JobQueue) (key : string) (f : Job -> Job) : JobQueue :=
  match map_get key (jobs q) with
  | Some job => set_jobs q (map_set key (f job) (jobs q))
  | None => q
  end.

Definition logJob (q : JobQueue) (key : string) (message : string) (now : Z)
    : JobQueue :=
  write_job q key (fun job => logJob_job job message now).

Definition updateJobProgress (q : JobQueue) (key : string) (percent : Z) (now : Z)
    : JobQueue :=
  write_job q key (fun job => updateJobProgress_job job percent now).

(** ** Worker loop: [startWorker], [start], and the end of [add] and [process] *)

Definition set_currentJobs (q : JobQueue) (keys : list string) : JobQueue :=
  {| config := config q; jobs := jobs q; processors := processors q;
     stats := stats q; isRunning := isRunning q; currentJobs := keys |}.

(** A worker's loop may call [executeJob] on the job under [key]: it was
    given the job, and the job is the [active] object that the map holds. *)
Definition held (q : JobQueue) (key : string) : bool :=
  existsb (String.eqb key) (currentJobs q)
  && match map_get key (jobs q) with
     | Some job => has_status active job
     | None => false
     end.

(** [const job = await this.getNextJob()] in [processLoop]: [getNextJob]
    has no [await] of its own and runs to its end inside the call; the job
    it returns is the one found under [key] by the scan. *)
Definition processLoop_getNextJob (q : JobQueue) (now : Z) : JobQueue :=
  match scan now (jobs q) with
  | Some (key, _) =>
      set_currentJobs (snd (getNextJob q now)) (key :: currentJobs q)
  | None => snd (getNextJob q now)
  end.

(** [await this.executeJob(job, worker)] in [processLoop], to the end of the
    turn: whether [executeJob] returns or throws, the loop lets go of the
    job. *)
Definition processLoop_executeJob (q : JobQueue) (key : string) (o : Outcome)
    (now : Z) : JobQueue :=
  set_currentJobs (executeJob q key o now)
    (filter (fun k => negb (String.eqb key k)) (currentJobs q)).

(** [startWorker] calls [processLoop()], which runs inside the call up to
    its first [await]: the worker's first request is served before
    [startWorker] returns. *)
Definition startWorker (q : JobQueue) (now : Z) : JobQueue :=
  if isRunning q then processLoop_getNextJob q now else q.

(** The workers [i], [i + 1], ... of
    [for (let i = 0; i < this.config.concurrency; i++) this.startWorker(i)],
    [n] of them; the [getNextJob] of worker [i] reads the clock at
    [clock i]. *)
Fixpoint startWorkers (n i : nat) (q : JobQueue) (clock : nat -> Z) : JobQueue :=
  match n with
  | O => q
  | S n' => startWorkers n' (S i) (startWorker q (clock i)) clock
  end.

Definition start (q : JobQueue) (clock : nat -> Z) : JobQueue :=
  if isRunning q then q
  else startWorkers (Cfg.concurrency (config q)) 0 (raise q) clock.

(** [add], as it is when it returns its promise: [now] is the clock reading
    of [add] itself and [clock] gives those of the workers it may start. The
    job returned is the object that the map holds, so as [start] has left
    it. *)
Definition add (q : JobQueue) (newId jobType : string) (payload : JsValue)
    (options : Opt.t) (now : Z) (clock : nat -> Z) : Job * JobQueue :=
  let '(job, q1) := enqueue q newId jobType payload options now in
  let q2 := if negb (isRunning q1) then start q1 clock else q1 in
  (match map_get newId (jobs q2) with Some current => current | None => job end,
   q2).

Definition process (q : JobQueue) (jobType : string) (clock : nat -> Z)
    : JobQueue :=
  let q1 := register q jobType in
  if negb (isRunning q1) then start q1 clock else q1.

(** ** The [queue:add] command *)

(** The handler destructures [type], [data], [priority = 0] and [delay = 0]
    from its arguments and refuses a missing or empty [type] before it
    touches the queue; [payload] is the job data after parsing. *)
Definition queue_add_command (q : JobQueue) (newId : string)
    (jobType : option string) (payload : JsValue) (prio dly : option Z) (now : Z)
    (clock : nat -> Z) : option Job * JobQueue :=
  match jobType with
  | None | Some EmptyString => (None, q)
  | Some t =>
      let '(job, q') :=
        add q newId t payload
          (Opt.mk (Some (spread 0 prio)) (Some (spread 0 dly)) None None) now
          clock in
      (Some job, q')
  end.

(** ** Runs of the queue *)

(** What can happen to a queue, one synchronous piece at a time: calls of
    the public methods, a worker asking the scheduler for a job, a worker's
    [executeJob] on the job it holds, the side channels used by a running
    processor, and the delay timer of [add]. [OpAdd] and [OpProcess] are
    [add] and [process] with [start] taken as far as [this.isRunning = true];
    the first requests of the workers that [start] launches on a queue that
    was not running are steps [OpGetNextJob] of their own. *)
Inductive Op : Type :=
| OpAdd (newId jobType : string) (payload : JsValue) (options : Opt.t)
| OpProcess (jobType : string)
| OpStop
| OpGetNextJob
| OpExecuteJob (key : string) (o : Outcome)
| OpLog (key : string) (message : string)
| OpProgress (key : string) (percent : Z)
| OpRemove (jobId : string)
| OpClean (olderThan : Z)
| OpGetStats
| OpDelayTimer (jobId : string).

Definition step (q : JobQueue) (now : Z) (op : Op) : JobQueue :=
  match op with
  | OpAdd newId jobType payload options =>
      raise (snd (enqueue q newId jobType payload options now))
  | OpProcess jobType => raise (register q jobType)
  | OpStop => stop q
  | OpGetNextJob => processLoop_getNextJob q now
  | OpExecuteJob key o =>
      if held q key then processLoop_executeJob q key o now else q
  | OpLog key message => logJob q key message now
  | OpProgress key percent => updateJobProgress q key percent now
  | OpRemove jobId => snd (remove q jobId now)
  | OpClean olderThan => snd (clean q olderThan now)
  | OpGetStats => snd (getStats q now)
  | OpDelayTimer jobId => delayTimer q jobId
  end.

(** A run is a list of clock readings and operations. *)
Fixpoint run (q : JobQueue) (ops : list (Z * Op)) : JobQueue :=
  match ops with
  | [] => q
  | (now, op) :: rest => run (step q now op) rest
  end.

(** The requests of the workers [i], [i + 1], ..., [n] of them, each at its
    own clock reading. *)
Definition requests (clock : nat -> Z) (i n : nat) : list (Z * Op) :=
  map (fun k => (clock k, OpGetNextJob)) (seq i n).

(** The first requests of the workers that [start] launches on a queue that
    is not running. *)
Definition first_requests (q : JobQueue) (clock : nat -> Z) : list (Z * Op) :=
  requests clock 0 (if isRunning q then 0%nat else Cfg.concurrency (config q)).

(** Whether a step calls the processor on the job stored under [key]. *)
Definition calls_processor (q : JobQueue) (key : string) (op : Op) : bool :=
  match op with
  | OpExecuteJob key' _ =>
      String.eqb key key' && held q key &&
      match map_get key (jobs q) with
      | Some job => map_has (type job) (processors q)
      | None => false
      end
  | _ => false
  end.

(** The number of processor calls on the job under [key] along a run. *)
Fixpoint invocations (key : string) (q : JobQueue) (ops : list (Z * Op)) : nat :=
  match ops with
  | [] => 0
  | (now, op) :: rest =>
      ((if calls_processor q key op then 1 else 0)
       + invocations key (step q now op) rest)%nat
  end.

(** The identifiers handed out by [generateJobId] along a run. *)
Fixpoint issued (ops : list (Z * Op)) : list string :=
  match ops with
  | [] => []
  | (_, OpAdd newId _ _ _) :: rest => newId :: issued rest
  | _ :: rest => issued rest
  end.

(** ** Well-formed states *)

(** A [Map] holds each key once. *)
Definition keys_unique (m : JsMap Job) : Prop := NoDup (map_keys m).

(** Jobs entered the store in the order of their creation times. *)
Definition created_in_order (l : list Job) : Prop :=
  StronglySorted (fun a b => createdAt a <= createdAt b) l.

(** The clock readings of a run never decrease. *)
Definition clock_in_order (ops : list (Z * Op)) : Prop :=
  StronglySorted Z.le (map fst ops).

(** The store holds its jobs in the order of their creation times, none of
    which is later than [t]. *)
Definition stamped (t : Z) (m : JsMap Job) : Prop :=
  created_in_order (map_values m)
  /\ Forall (fun e => createdAt (snd e) <= t) m.

(** The order of a listing: higher priority first, then earlier creation. *)
Definition listed_before (a b : Job) : Prop :=
  priority b < priority a \/ (priority a = priority b /\ createdAt a <= createdAt b).

(** ** Predicates and auxiliary functions of the proofs *)

(** What the scan has found after a prefix [p] of the entries. *)
Definition scanned (now : Z) (p : JsMap Job)
    (acc : option (string * Job) * option Z) : Prop :=
  match fst acc with
  | None => snd acc = None /\ forall e, In e p -> ready now (snd e) = false
  | Some e =>
      snd acc = Some (priority (snd e))
      /\ ready now (snd e) = true
      /\ exists l1 l2,
           p = l1 ++ e :: l2
           /\ (forall x, In x l1 -> ready now (snd x) = true ->
                 priority (snd x) < priority (snd e))
           /\ (forall x, In x l2 -> ready now (snd x) = true ->
                 priority (snd x) <= priority (snd e))
  end.

(** The scheduler's choice, computed from the right: the first job among
    the ready ones of highest priority. *)
Fixpoint best (now : Z) (l : list Job) : option Job :=
  match l with
  | [] => None
  | x :: l' =>
      if ready now x then
        match best now l' with
        | Some y => if priority y <=? priority x then Some x else Some y
        | None => Some x
        end
      else best now l'
  end.

Definition better (a b : option Job) : option Job :=
  match a, b with
  | None, r => r
  | Some x, None => Some x
  | Some x, Some y => if priority x <? priority y then Some y else Some x
  end.

(** The job object as [executeJob] leaves it. *)
Definition settle (q : JobQueue) (job : Job) (o : Outcome) (now : Z) : Job :=
  if negb (map_has (type job) (processors q)) then
    failJob_job job (Some (no_processor_message job)) now
  else
    match o with
    | Resolved value => completeJob_job job value now
    | Rejected message =>
        if (attempts job <? maxRetries job)%nat
        then retryJob_job (Cfg.retryDelay (config q)) job message now
        else failJob_job job message now
    | RejectedNullish => job
    | TimedOut =>
        if (attempts job <? maxRetries job)%nat
        then retryJob_job (Cfg.retryDelay (config q)) job
               (Some (timeout_message job)) now
        else failJob_job job (Some (timeout_message job)) now
    end.

(** The entry under [key] before and after a step. *)
Inductive view_change (q : JobQueue) (now : Z) (op : Op) (key : string)
    : option Job -> option Job -> Prop :=
| vc_same old : view_change q now op key old old
| vc_gone old : view_change q now op key old None
| vc_touch j j' :
    status j' = status j -> attempts j' = attempts j ->
    maxRetries j' = maxRetries j -> type j' = type j ->
    view_change q now op key (Some j) (Some j')
| vc_claim j :
    op = OpGetNextJob -> status j = waiting ->
    view_change q now op key (Some j) (Some (claim j now))
| vc_settle j o :
    op = OpExecuteJob key o -> status j = active ->
    view_change q now op key (Some j) (Some (settle q j o now))
| vc_add old jobType payload options :
    op = OpAdd key jobType payload options ->
    view_change q now op key old
      (Some (fst (enqueue q key jobType payload options now))).

(** Every stored job has used no more retries than it may, and a job that
    has been retried has a processor. *)
Definition sound (q : JobQueue) : Prop :=
  forall k j, map_get k (jobs q) = Some j ->
    (attempts j <= maxRetries j)%nat
    /\ ((0 < attempts j)%nat -> map_has (type j) (processors q) = true).

(** Whether a step is an [add] that draws the identifier [key]. *)
Definition adds (key : string) (op : Op) : bool :=
  match op with
  | OpAdd newId _ _ _ => String.eqb key newId
  | _ => false
  end.


(** The job under [key] is active with [a] attempts, and no worker's loop
    holds it. *)
Definition stranded (key : string) (a : nat) (q : JobQueue) : Prop :=
  existsb (String.eqb key) (currentJobs q) = false
  /\ exists j, map_get key (jobs q) = Some j /\ status j = active /\ attempts j = a.

(** The job under [key] has failed for good, or is gone. *)
Definition dead (key : string) (q : JobQueue) : Prop :=
  match map_get key (jobs q) with
  | Some j => status j = failed
  | None => True
  end.

(** ** Example runs *)

(** [process] on a new queue: the queue starts, and its four workers find
    nothing and go to sleep. *)
Definition started_run : list (Z * Op) :=
  (1000, OpProcess "flaky") :: repeat (1000, OpGetNextJob) 4.

(** A job added to the running queue, which a worker holds for the first
    time. *)
Definition claimed_run : list (Z * Op) :=
  started_run
  ++ [ (1001, OpAdd "j1" "flaky" JsNull (Opt.mk (Some 5) None (Some 1%nat) None));
       (2000, OpGetNextJob) ].

Definition claimed_job : Job :=
  claim
    (fst (enqueue (run (newJobQueue Cfg.no_input) started_run) "j1" "flaky" JsNull
            (Opt.mk (Some 5) None (Some 1%nat) None) 1001))
    2000.

(** A job that may be retried once, whose processor has failed once and
    which a worker holds again at clock reading 8000. *)
Definition flaky_run : list (Z * Op) :=
  claimed_run
  ++ [ (2010, OpExecuteJob "j1" (Rejected (Some "boom")));
       (8000, OpGetNextJob) ].

Definition flaky_job : Job :=
  claim (retryJob_job 5000 claimed_job (Some "boom") 2010) 8000.

(** A job of a type without processor, added to a new queue: the first
    worker that [start] launches is given the job. *)
Definition orphan_run : list (Z * Op) :=
  (10, OpAdd "j9" "unregistered-type" JsNull Opt.empty)
  :: repeat (10, OpGetNextJob) 4.

Definition orphan_job : Job :=
  claim (fst (enqueue (newJobQueue Cfg.no_input) "j9" "unregistered-type" JsNull
                Opt.empty 10)) 10.

(** A job completed at clock reading 2010 next to one that is waiting. *)
Definition done_run : list (Z * Op) :=
  claimed_run
  ++ [ (2010, OpExecuteJob "j1" (Resolved (JsNum 7)));
       (2020, OpAdd "j2" "flaky" JsNull Opt.empty) ].

(** A job that fails twice, the clock being set back before the second
    failure: [process] starts the queue, whose four workers find nothing;
    the job is added, claimed and fails; it is claimed again when it is due
    and fails at an earlier clock reading. *)
Definition backstep_claimed : list (Z * Op) :=
  (1000000, OpProcess "flaky") :: repeat (1000000, OpGetNextJob) 4
  ++ [ (1000001, OpAdd "j1" "flaky" JsNull Opt.empty);
       (1001000, OpGetNextJob) ].

Definition backstep_job : Job :=
  claim
    (fst (enqueue (newJobQueue Cfg.no_input) "j1" "flaky" JsNull Opt.empty 1000001))
    1001000.

Definition backstep_first : list (Z * Op) :=
  backstep_claimed ++ [ (1001010, OpExecuteJob "j1" (Rejected (Some "boom"))) ].

Definition backstep_again : list (Z * Op) :=
  backstep_first ++ [ (1007000, OpGetNextJob) ].

Definition backstep_run : list (Z * Op) :=
  backstep_again ++ [ (10, OpExecuteJob "j1" (Rejected (Some "boom"))) ].

(** Two jobs of equal priority added to a running queue, the clock stepping
    back by five milliseconds between the two calls of [add]. *)
Definition tie_queue : JobQueue :=
  snd (add
         (snd (add (process (newJobQueue Cfg.no_input) "resize" (fun _ => 0))
                 "a" "resize" JsNull Opt.empty 10 (fun _ => 10)))
         "b" "resize" JsNull Opt.empty 5 (fun _ => 5)).

(** ** One turn of a worker *)

(** One turn of a worker's loop that runs to the end of [executeJob]: the
    worker asks for a job at [now] and, when it gets one, executes the
    object it was handed, which the map holds under the key the scan
    found; the race settles to [o] at [later]. With no job the worker
    sleeps. *)
Definition worker_turn (q : JobQueue) (now : Z) (o : Outcome) (later : Z)
    : JobQueue :=
  if isRunning q then
    match scan now (jobs q) with
    | Some (key, _) =>
        processLoop_executeJob (processLoop_getNextJob q now) key o later
    | None => processLoop_getNextJob q now
    end
  else q.

(** ** The registry of queues: [getQueue] and the commands *)

(** [{ ...config, name }] *)
Definition with_name (c : Cfg.input) (name : string) : Cfg.input :=
  Cfg.mkInput (Some name) (Cfg.i_maxRetries c) (Cfg.i_retryDelay c)
    (Cfg.i_concurrency c) (Cfg.i_timeout c) (Cfg.i_cleanupInterval c).

(** The module-level [queues] map is an explicit argument and result;
    [queues.has(name)] is [map_get] finding an entry. *)
Definition getQueue (queues : JsMap JobQueue) (name : string) (c : Cfg.input)
    : JobQueue * JsMap JobQueue :=
  match map_get name queues with
  | Some q => (q, queues)
  | None =>
      (newJobQueue (with_name c name),
       map_set name (newJobQueue (with_name c name)) queues)
  end.

(** The commands take their arguments by destructuring, [None] being an
    absent argument; a command that finds no queue, or lacks a required
    argument, logs an error and returns [undefined] ([None]). A queue that a
    command changes is the object the registry holds. *)
Definition queue_stats_handler (queues : JsMap JobQueue) (name : option string)
    (now : Z) : option StatsView * JsMap JobQueue :=
  match map_get (spread "default" name) queues with
  | None => (None, queues)
  | Some q =>
      (Some (fst (getStats q now)),
       map_set (spread "default" name) (snd (getStats q now)) queues)
  end.

Definition queue_jobs_handler (queues : JsMap JobQueue) (name : option string)
    (st : option Status) (limit : option nat) : option (list Job) :=
  match map_get (spread "default" name) queues with
  | None => None
  | Some q =>
      match getJobs q st (spread 10%nat limit) with
      | [] => None
      | js => Some js
      end
  end.

Definition queue_add_handler (queues : JsMap JobQueue) (name : option string)
    (newId : string) (jobType : option string) (payload : JsValue)
    (prio dly : option Z) (now : Z) (clock : nat -> Z)
    : option Job * JsMap JobQueue :=
  match jobType with
  | None | Some EmptyString => (None, queues)
  | Some _ =>
      let '(q, queues') := getQueue queues (spread "default" name) Cfg.no_input in
      (fst (queue_add_command q newId jobType payload prio dly now clock),
       map_set (spread "default" name)
         (snd (queue_add_command q newId jobType payload prio dly now clock))
         queues')
  end.


Definition queue_clean_handler (queues : JsMap JobQueue) (name : option string)
    (hours : option Z) (now : Z) : option nat * JsMap JobQueue :=
  match map_get (spread "default" name) queues with
  | None => (None, queues)
  | Some q =>
      let olderThan := spread 24 hours * 60 * 60 * 1000 in
      (Some (fst (clean q olderThan now)),
       map_set (spread "default" name) (snd (clean q olderThan now)) queues)
  end.

(** ** Further predicates of the proofs *)

(** The entry under [key] before and after a step, with the exact change. *)
Inductive job_change (q : JobQueue) (now : Z) (op : Op) (key : string)
    : option Job -> option Job -> Prop :=
| jc_same old : job_change q now op key old old
| jc_removed j :
    op = OpRemove key -> status j <> active ->
    job_change q now op key (Some j) None
| jc_swept j olderThan :
    op = OpClean olderThan -> is_old_terminal (now - olderThan) j = true ->
    job_change q now op key (Some j) None
| jc_log j message :
    op = OpLog key message ->
    job_change q now op key (Some j) (Some (logJob_job j message now))
| jc_progress j percent :
    op = OpProgress key percent ->
    job_change q now op key (Some j) (Some (updateJobProgress_job j percent now))
| jc_claim j :
    op = OpGetNextJob -> ready now j = true ->
    job_change q now op key (Some j) (Some (claim j now))
| jc_settle j o :
    op = OpExecuteJob key o -> status j = active ->
    job_change q now op key (Some j) (Some (settle q j o now))
| jc_add old jobType payload options :
    op = OpAdd key jobType payload options ->
    job_change q now op key old
      (Some (fst (enqueue q key jobType payload options now))).

(** The fields that no operation writes after [add]. *)
Definition same_identity (j j' : Job) : Prop :=
  id j' = id j /\ type j' = type j /\ data j' = data j
  /\ priority j' = priority j /\ delay j' = delay j
  /\ maxRetries j' = maxRetries j /\ timeout j' = timeout j
  /\ createdAt j' = createdAt j.

(** What a job record looks like in each status. *)
Definition consistent (key : string) (j : Job) : Prop :=
  id j = key
  /\ (status j <> failed -> attempts j = 0%nat -> error j = None)
  /\ match status j with
     | waiting =>
         result j = JsNull /\ ((0 < attempts j)%nat -> startedAt j <> None)
     | active => result j = JsNull /\ startedAt j <> None
     | completed =>
         exists s t,
           startedAt j = Some s
           /\ completedAt j = Some t /\ processingTime j = Some (t - s)
     | failed =>
         result j = JsNull
         /\ exists s t,
              startedAt j = Some s
              /\ failedAt j = Some t /\ processingTime j = Some (t - s)
     end.

(** The four status counters hold the numbers of stored jobs. *)
Definition agrees (q : JobQueue) : Prop :=
  activeJobs (stats q) = count (has_status active) (map_values (jobs q))
  /\ waitingJobs (stats q) = count (has_status waiting) (map_values (jobs q))
  /\ completedJobs (stats q) = count (has_status completed) (map_values (jobs q))
  /\ failedJobs (stats q) = count (has_status failed) (map_values (jobs q)).

(** How a stored job may differ from an earlier state of itself. *)
Definition evolves (j j' : Job) : Prop :=
  same_identity j j'
  /\ (attempts j <= attempts j')%nat
  /\ (exists more, logs j' = logs j ++ more)
  /\ (status j = completed \/ status j = failed ->
      status j' = status j /\ attempts j' = attempts j
      /\ result j' = result j /\ error j' = error j
      /\ processAt j' = processAt j /\ startedAt j' = startedAt j
      /\ completedAt j' = completedAt j /\ failedAt j' = failedAt j
      /\ processingTime j' = processingTime j).

(** ** Further example runs *)

(** Two jobs waiting on a running queue, the second of higher priority. *)
Definition two_jobs_run : list (Z * Op) :=
  (0, OpProcess "resize") :: repeat (0, OpGetNextJob) 4
  ++ [ (1, OpAdd "a" "resize" JsNull (Opt.mk (Some 5) None None None));
       (2, OpAdd "b" "resize" JsNull (Opt.mk (Some 10) None None None)) ].

Definition second_job : Job :=
  claim
    (fst (enqueue (newJobQueue Cfg.no_input)
            "b" "resize" JsNull (Opt.mk (Some 10) None None None) 2))
    3.

(** The registry after [queue:add] of one job on an empty registry. *)
Definition one_queue : JsMap JobQueue :=
  snd (queue_add_handler [] None "j1" (Some "resize") JsNull None None 1
         (fun _ => 1)).

Definition one_queue_default : JobQueue :=
  snd (add (newJobQueue (with_name Cfg.no_input "default")) "j1" "resize" JsNull
         (Opt.mk (Some 0) (Some 0) None None) 1 (fun _ => 1)).

(** * Properties *)

(** ** The map *)

Section JsMapFacts.
Variable V : Type.
Implicit Types (m : JsMap V) (k : string) (v : V).

Lemma map_get_set_same m k v : map_get k (map_set k v m) = Some v.
Proof.
  induction m as [|[k' v'] m IH]; simpl.
  - now rewrite String.eqb_refl.
  - destruct (String.eqb k k') eqn:E; simpl; rewrite E; auto.
Qed.

Lemma map_get_set_other m k k' v :
  k <> k' -> map_get k (map_set k' v m) = map_get k m.
Proof.
  intros Hne. induction m as [|[k0 v0] m IH]; simpl.
  - apply String.eqb_neq in Hne. now rewrite Hne.
  - destruct (String.eqb k' k0) eqn:E; simpl.
    + apply String.eqb_eq in E. subst k0.
      apply String.eqb_neq in Hne. now rewrite Hne.
    + now rewrite IH.
Qed.

Lemma map_get_delete_same m k : map_get k (map_delete k m) = None.
Proof.
  induction m as [|[k0 v0] m IH]; simpl; auto.
  destruct (String.eqb k k0) eqn:E; simpl; auto. now rewrite E.
Qed.

Lemma map_get_delete_other m k k' :
  k <> k' -> map_get k (map_delete k' m) = map_get k m.
Proof.
  intros Hne. induction m as [|[k0 v0] m IH]; simpl; auto.
  destruct (String.eqb k' k0) eqn:E; simpl.
  - apply String.eqb_eq in E. subst k0.
    apply String.eqb_neq in Hne. now rewrite Hne.
  - now rewrite IH.
Qed.

Lemma map_get_In m k v : map_get k m = Some v -> In (k, v) m.
Proof.
  induction m as [|[k0 v0] m IH]; simpl; [discriminate|].
  destruct (String.eqb k k0) eqn:E.
  - apply String.eqb_eq in E. intros [= ->]. subst. now left.
  - auto.
Qed.

Lemma map_get_None_keys m k : map_get k m = None -> ~ In k (map_keys m).
Proof.
  induction m as [|[k0 v0] m IH]; simpl; auto.
  destruct (String.eqb k k0) eqn:E; [discriminate|].
  apply String.eqb_neq in E. intros H [H1|H1]; [congruence|]. now apply IH.
Qed.

Lemma In_map_get m k v :
  NoDup (map_keys m) -> In (k, v) m -> map_get k m = Some v.
Proof.
  induction m as [|[k0 v0] m IH]; simpl; [tauto|].
  intros Hnd [[= -> ->]|Hin].
  - now rewrite String.eqb_refl.
  - inversion Hnd as [|? ? Hnotin Hnd']; subst.
    destruct (String.eqb k k0) eqn:E; auto.
    apply String.eqb_eq in E. subst k0. exfalso. apply Hnotin.
    change k with (fst (k, v)). now apply in_map.
Qed.

Lemma map_delete_absent m k : ~ In k (map_keys m) -> map_delete k m = m.
Proof.
  induction m as [|[k0 v0] m IH]; simpl; auto.
  intros Hn. destruct (String.eqb k k0) eqn:E; simpl.
  - apply String.eqb_eq in E. subst k0. exfalso. apply Hn. now left.
  - f_equal. apply IH. intros Hin. apply Hn. now right.
Qed.

Lemma map_keys_set_present m k v v0 :
  map_get k m = Some v0 -> map_keys (map_set k v m) = map_keys m.
Proof.
  induction m as [|[k1 v1] m IH]; simpl; [discriminate|].
  destruct (String.eqb k k1) eqn:E; simpl; auto.
  intros H. f_equal. auto.
Qed.
End JsMapFacts.

(** ** Statuses *)

Lemma Status_eqb_eq (a b : Status) : Status_eqb a b = true <-> a = b.
Proof. destruct a, b; simpl; split; congruence. Qed.

Lemma has_status_true (s : Status) (j : Job) : has_status s j = true <-> status j = s.
Proof. apply Status_eqb_eq. Qed.

Lemma has_status_false (s : Status) (j : Job) : has_status s j = false <-> status j <> s.
Proof.
  unfold has_status. destruct (status j), s; simpl; split; congruence.
Qed.

Lemma ready_spec (now : Z) (j : Job) :
  ready now j = true <-> status j = waiting /\ processAt j <= now.
Proof.
  unfold ready. rewrite andb_true_iff, has_status_true, Z.leb_le. tauto.
Qed.

Lemma is_old_terminal_spec (cutoff : Z) (j : Job) :
  is_old_terminal cutoff j = true <->
  (status j = completed \/ status j = failed) /\ updatedAt j < cutoff.
Proof.
  unfold is_old_terminal.
  rewrite andb_true_iff, orb_true_iff, !has_status_true, Z.ltb_lt. tauto.
Qed.

(** ** Progress *)

(** C10: whatever integer a processor passes to [progress], the stored
    progress is [max(0, min(100, percent))] and lies between 0 and 100. *)
Theorem updateJobProgress_clamps (q : JobQueue) (key : string) (percent now : Z) :
  map_get key (jobs (updateJobProgress q key percent now))
  = option_map (fun job => updateJobProgress_job job percent now)
      (map_get key (jobs q))
  /\ forall job : Job,
       progress (updateJobProgress_job job percent now) = Z.max 0 (Z.min 100 percent)
       /\ 0 <= progress (updateJobProgress_job job percent now) <= 100.
Proof.
  split.
  - unfold updateJobProgress, write_job.
    destruct (map_get key (jobs q)) as [job|] eqn:E; simpl.
    + apply map_get_set_same.
    + exact E.
  - intros job. simpl. lia.
Qed.

(** ** Statistics *)


(** ** Removal *)

(** C6: [remove] refuses an active job, returning [false] and leaving the
    queue as it was; a stored job in any other status is deleted (and only
    it) and [true] is returned. *)
Theorem remove_spec (q : JobQueue) (jobId : string) (now : Z) (job : Job)
    (Hget : map_get jobId (jobs q) = Some job) :
  (status job = active -> remove q jobId now = (false, q))
  /\ (status job = waiting \/ status job = completed \/ status job = failed ->
      fst (remove q jobId now) = true
      /\ jobs (snd (remove q jobId now)) = map_delete jobId (jobs q)
      /\ map_get jobId (jobs (snd (remove q jobId now))) = None
      /\ forall k, k <> jobId ->
           map_get k (jobs (snd (remove q jobId now))) = map_get k (jobs q)).
Proof.
  unfold remove. rewrite Hget. split.
  - intros Hs. apply has_status_true in Hs. now rewrite Hs.
  - intros Hs.
    assert (Hna : has_status active job = false).
    { apply has_status_false. destruct Hs as [H|[H|H]]; rewrite H; discriminate. }
    rewrite Hna. simpl. repeat split.
    + apply map_get_delete_same.
    + intros k Hk. now apply map_get_delete_other.
Qed.

(** ** Sweeping old terminal jobs *)

Lemma map_delete_middle (V : Type) (p l : JsMap V) (k : string) (v : V) :
  NoDup (map_keys (p ++ (k, v) :: l)) -> map_delete k (p ++ (k, v) :: l) = p ++ l.
Proof.
  intros Hnd. unfold map_delete. rewrite filter_app. simpl.
  rewrite String.eqb_refl. simpl.
  unfold map_keys in Hnd. rewrite map_app in Hnd. simpl in Hnd.
  apply NoDup_remove_2 in Hnd.
  f_equal; apply map_delete_absent; intros Hin; apply Hnd, in_or_app; auto.
Qed.

Lemma clean_loop (cutoff : Z) (l p : JsMap Job) (n : nat) :
  NoDup (map_keys (p ++ l)) ->
  fold_left (clean_body cutoff) l (p ++ l, n)
  = (p ++ filter (fun e => negb (is_old_terminal cutoff (snd e))) l,
     (n + List.length (filter (fun e => is_old_terminal cutoff (snd e)) l))%nat).
Proof.
  revert p n. induction l as [|[k j] l IH]; intros p n Hnd; simpl.
  - now rewrite Nat.add_0_r.
  - unfold clean_body at 2. simpl.
    destruct (is_old_terminal cutoff j) eqn:E; simpl.
    + rewrite map_delete_middle by exact Hnd.
      rewrite IH.
      * f_equal. lia.
      * unfold map_keys in *. rewrite map_app in *. simpl in Hnd.
        now apply NoDup_remove_1 in Hnd.
    + change (p ++ (k, j) :: l) with (p ++ [(k, j)] ++ l) in *.
      rewrite app_assoc in *. rewrite IH by exact Hnd.
      now rewrite <- !app_assoc.
Qed.

Lemma keys_unique_filter (f : string * Job -> bool) (m : JsMap Job) :
  keys_unique m -> keys_unique (filter f m).
Proof.
  unfold keys_unique, map_keys.
  induction m as [|e m IH]; simpl; auto.
  intros Hnd. inversion Hnd as [|? ? Hnotin Hnd']; subst.
  destruct (f e); simpl; auto.
  constructor; auto.
  intros Hin. apply Hnotin. apply in_map_iff in Hin as [x [Hx Hin]].
  apply filter_In in Hin as [Hin _]. rewrite <- Hx. now apply in_map.
Qed.

Lemma filter_none (A : Type) (f : A -> bool) (l : list A) :
  filter f (filter (fun x => negb (f x)) l) = [].
Proof.
  induction l as [|x l IH]; simpl; auto.
  destruct (f x) eqn:E; simpl; auto. now rewrite E.
Qed.

Lemma filter_twice (A : Type) (f : A -> bool) (l : list A) :
  filter f (filter f l) = filter f l.
Proof.
  induction l as [|x l IH]; simpl; auto.
  destruct (f x) eqn:E; simpl; auto. rewrite E. now f_equal.
Qed.

Lemma clean_result (q : JobQueue) (olderThan now : Z) :
  keys_unique (jobs q) ->
  fst (clean q olderThan now)
  = List.length (filter (fun e => is_old_terminal (now - olderThan) (snd e)) (jobs q))
  /\ jobs (snd (clean q olderThan now))
     = filter (fun e => negb (is_old_terminal (now - olderThan) (snd e))) (jobs q)
  /\ (fst (clean q olderThan now) = 0%nat ->
      snd (clean q olderThan now) = set_jobs q (jobs (snd (clean q olderThan now)))).
Proof.
  intros Hnd. unfold clean. cbv zeta.
  pose proof (@clean_loop (now - olderThan) (jobs q) [] 0%nat Hnd) as H.
  simpl in H. rewrite H. simpl.
  destruct (List.length _) as [|c]; simpl; repeat split; auto; discriminate.
Qed.

(** C7: [clean] removes exactly the completed and failed jobs whose
    [updatedAt] is before [now - olderThan], returns how many they were and
    keeps every other entry as it was and where it was; cleaning again at
    the same clock reading removes nothing and returns 0. *)
Theorem clean_spec (q : JobQueue) (olderThan now : Z)
    (Hkeys : keys_unique (jobs q)) :
  let swept (e : string * Job) :=
    match status (snd e) with
    | completed | failed => updatedAt (snd e) <? now - olderThan
    | _ => false
    end in
  jobs (snd (clean q olderThan now)) = filter (fun e => negb (swept e)) (jobs q)
  /\ fst (clean q olderThan now) = List.length (filter swept (jobs q))
  /\ clean (snd (clean q olderThan now)) olderThan now
     = (0%nat, snd (clean q olderThan now)).
Proof.
  intros swept.
  assert (Hsw : forall e, is_old_terminal (now - olderThan) (snd e) = swept e).
  { intros e. unfold swept, is_old_terminal, has_status.
    destruct (status (snd e)); reflexivity. }
  destruct (clean_result q olderThan now Hkeys) as (Hn & Hj & _).
  rewrite Hj, Hn.
  split; [|split].
  - apply filter_ext. intros e. now rewrite Hsw.
  - f_equal. apply filter_ext. exact Hsw.
  - set (q1 := snd (clean q olderThan now)) in *.
    assert (Hk1 : keys_unique (jobs q1)).
    { rewrite Hj. now apply keys_unique_filter. }
    destruct (clean_result q1 olderThan now Hk1) as (Hn1 & Hj1 & Hq1).
    assert (Hz : fst (clean q1 olderThan now) = 0%nat).
    { rewrite Hn1, Hj. now rewrite filter_none. }
    specialize (Hq1 Hz).
    assert (Hsame : jobs (snd (clean q1 olderThan now)) = jobs q1).
    { rewrite Hj1, Hj. apply filter_twice. }
    rewrite Hsame in Hq1.
    rewrite (surjective_pairing (clean q1 olderThan now)), Hz, Hq1.
    f_equal. destruct q1; reflexivity.
Qed.

(** ** The scheduler *)

Lemma scan_body_scanned (now : Z) (p : JsMap Job) acc (x : string * Job) :
  scanned now p acc -> scanned now (p ++ [x]) (scan_body now acc x).
Proof.
  destruct acc as [[e|] hp]; unfold scanned, scan_body; simpl.
  - intros (-> & Hr & l1 & l2 & -> & H1 & H2).
    destruct (ready now (snd x)) eqn:Ex; simpl.
    + destruct (priority (snd e) <? priority (snd x)) eqn:Ep; simpl.
      * apply Z.ltb_lt in Ep. repeat split; auto.
        exists (l1 ++ e :: l2), []. repeat split.
        -- intros y Hy Hry. apply in_app_or in Hy as [Hy|[<-|Hy]].
           ++ specialize (H1 y Hy Hry). lia.
           ++ lia.
           ++ specialize (H2 y Hy Hry). lia.
        -- intros y [].
      * apply Z.ltb_ge in Ep. repeat split; auto.
        exists l1, (l2 ++ [x]). repeat split; auto.
        -- now rewrite <- app_assoc.
        -- intros y Hy Hry. apply in_app_or in Hy as [Hy|[<-|[]]]; auto.
    + repeat split; auto.
      exists l1, (l2 ++ [x]). repeat split; auto.
      * now rewrite <- app_assoc.
      * intros y Hy Hry. apply in_app_or in Hy as [Hy|[<-|[]]]; auto. congruence.
  - intros (-> & Hnone).
    destruct (ready now (snd x)) eqn:Ex; simpl.
    + repeat split; auto. exists p, []. repeat split.
      * intros y Hy Hry. rewrite (Hnone y Hy) in Hry. discriminate.
      * intros y [].
    + split; auto. intros y Hy. apply in_app_or in Hy as [Hy|[<-|[]]]; auto.
Qed.

Lemma scan_scanned (now : Z) (m : JsMap Job) :
  scanned now m (fold_left (scan_body now) m (None, None)).
Proof.
  induction m as [|x m IH] using rev_ind.
  - simpl. split; auto. intros e [].
  - rewrite fold_left_app. simpl. now apply scan_body_scanned.
Qed.

Lemma StronglySorted_middle (A : Type) (R : A -> A -> Prop) (a b : list A) (x : A) :
  StronglySorted R (a ++ x :: b) -> Forall (R x) b.
Proof.
  induction a as [|y a IH]; simpl; intros H; inversion H; subst; auto.
Qed.

(** ** The listing *)

Lemma compareJobs_le (a b : Job) : compareJobs a b <= 0 <-> listed_before a b.
Proof.
  unfold compareJobs, listed_before.
  destruct (priority a =? priority b) eqn:E; simpl.
  - apply Z.eqb_eq in E. lia.
  - apply Z.eqb_neq in E. lia.
Qed.

Lemma listed_before_total (a b : Job) : listed_before a b \/ listed_before b a.
Proof. unfold listed_before. lia. Qed.

Lemma listed_before_trans (a b c : Job) :
  listed_before a b -> listed_before b c -> listed_before a c.
Proof. unfold listed_before. lia. Qed.

Lemma sort_insert_perm (x : Job) (l : list Job) :
  Permutation (sort_insert x l) (x :: l).
Proof.
  induction l as [|y l IH]; simpl; auto.
  destruct (compareJobs x y <=? 0); auto.
  rewrite IH. apply perm_swap.
Qed.

Lemma js_sort_perm (l : list Job) : Permutation (js_sort l) l.
Proof.
  induction l as [|x l IH]; simpl; auto.
  rewrite sort_insert_perm. now constructor.
Qed.

Lemma sort_insert_sorted (x : Job) (l : list Job) :
  StronglySorted listed_before l -> StronglySorted listed_before (sort_insert x l).
Proof.
  induction l as [|y l IH]; simpl; intros Hs.
  - constructor; auto.
  - inversion Hs as [|? ? Hs' Hall]; subst.
    destruct (compareJobs x y <=? 0) eqn:E.
    + apply Z.leb_le, compareJobs_le in E.
      constructor; auto. constructor; auto.
      eapply Forall_impl; [|exact Hall].
      intros z Hz. eapply listed_before_trans; eauto.
    + apply Z.leb_gt in E.
      assert (Hyx : listed_before y x).
      { destruct (listed_before_total x y) as [H|H]; auto.
        apply compareJobs_le in H. lia. }
      constructor; auto.
      rewrite Forall_forall in *. intros z Hz.
      apply (Permutation_in _ (sort_insert_perm x l)) in Hz.
      destruct Hz as [<-|Hz]; auto.
Qed.

Lemma js_sort_sorted (l : list Job) : StronglySorted listed_before (js_sort l).
Proof.
  induction l as [|x l IH]; simpl.
  - constructor.
  - now apply sort_insert_sorted.
Qed.

Lemma firstn_sorted (A : Type) (R : A -> A -> Prop) (n : nat) (l : list A) :
  StronglySorted R l -> StronglySorted R (firstn n l).
Proof.
  revert l. induction n as [|n IH]; intros [|x l] Hs; simpl; try constructor.
  - inversion Hs; subst. auto.
  - inversion Hs as [|? ? _ Hall]; subst.
    rewrite Forall_forall in *. intros y Hy. apply Hall.
    eapply (In_nth_error) in Hy as [i Hi].
    destruct (Nat.lt_ge_cases i n) as [Hlt|Hge].
    + rewrite nth_error_firstn in Hi.
      destruct (i <? n)%nat eqn:E; [|discriminate].
      eapply nth_error_In; eauto.
    + rewrite nth_error_firstn in Hi.
      apply Nat.ltb_ge in Hge. rewrite Hge in Hi. discriminate.
Qed.

Lemma firstn_In (A : Type) (n : nat) (l : list A) (x : A) :
  In x (firstn n l) -> In x l.
Proof.
  rewrite <- (firstn_skipn n l) at 2. intros H. apply in_or_app. now left.
Qed.

(** The first ready job of a sorted listing after one more insertion. *)
Lemma find_ready_insert (now : Z) (x : Job) (l : list Job) :
  StronglySorted listed_before l ->
  find (ready now) (sort_insert x l)
  = if ready now x then
      match find (ready now) l with
      | Some y => if compareJobs x y <=? 0 then Some x else Some y
      | None => Some x
      end
    else find (ready now) l.
Proof.
  induction l as [|y l IH]; simpl; intros Hs.
  - reflexivity.
  - inversion Hs as [|? ? Hs' Hall]; subst.
    destruct (compareJobs x y <=? 0) eqn:E; simpl.
    + destruct (ready now x) eqn:Ex; auto.
      destruct (ready now y) eqn:Ey.
      * now rewrite E.
      * destruct (find (ready now) l) as [z|] eqn:Ez; auto.
        apply find_some in Ez as [Hz _].
        rewrite Forall_forall in Hall. specialize (Hall z Hz).
        apply Z.leb_le, compareJobs_le in E.
        assert (Hxz : compareJobs x z <= 0).
        { apply compareJobs_le. eapply listed_before_trans; eauto. }
        apply Z.leb_le in Hxz. now rewrite Hxz.
    + destruct (ready now y) eqn:Ey.
      * rewrite E. now destruct (ready now x).
      * now apply IH.
Qed.

Lemma scan_fold_best (now : Z) (m : JsMap Job) acc :
  snd acc = option_map (fun e => priority (snd e)) (fst acc) ->
  option_map snd (fst (fold_left (scan_body now) m acc))
  = better (option_map snd (fst acc)) (best now (map_values m)).
Proof.
  revert acc. induction m as [|x m IH]; intros [a hp] Hacc; simpl in *.
  - destruct a; reflexivity.
  - subst hp. unfold scan_body at 2. simpl.
    destruct (ready now (snd x)) eqn:Ex.
    + destruct a as [a|]; simpl.
      * destruct (priority (snd a) <? priority (snd x)) eqn:E1;
          rewrite IH by reflexivity; simpl;
          destruct (best now (map_values m)) as [y|]; simpl; try rewrite E1; auto.
        -- destruct (priority (snd x) <? priority y) eqn:E2;
             destruct (priority y <=? priority (snd x)) eqn:E3; simpl;
             try rewrite E1; auto.
           ++ apply Z.ltb_lt in E2. apply Z.leb_le in E3. lia.
           ++ destruct (priority (snd a) <? priority y) eqn:E4; auto.
              apply Z.ltb_lt in E1. apply Z.ltb_ge in E4. apply Z.ltb_lt in E2. lia.
           ++ apply Z.ltb_ge in E2. apply Z.leb_gt in E3. lia.
        -- destruct (priority (snd a) <? priority y) eqn:E2;
             destruct (priority y <=? priority (snd x)) eqn:E3; simpl;
             try rewrite E1; try rewrite E2; auto.
           apply Z.ltb_lt in E2. apply Z.leb_le in E3. apply Z.ltb_ge in E1. lia.
      * rewrite IH by reflexivity. simpl.
        destruct (best now (map_values m)) as [y|]; simpl; auto.
        destruct (priority (snd x) <? priority y) eqn:E2;
          destruct (priority y <=? priority (snd x)) eqn:E3; auto.
        -- apply Z.ltb_lt in E2. apply Z.leb_le in E3. lia.
        -- apply Z.ltb_ge in E2. apply Z.leb_gt in E3. lia.
    + now rewrite IH.
Qed.

Lemma scan_best (now : Z) (m : JsMap Job) :
  option_map snd (scan now m) = best now (map_values m).
Proof. unfold scan. now rewrite scan_fold_best. Qed.

Lemma best_In (now : Z) (l : list Job) (y : Job) :
  best now l = Some y -> In y l /\ ready now y = true.
Proof.
  induction l as [|x l IH]; simpl; [discriminate|].
  destruct (ready now x) eqn:Ex.
  - destruct (best now l) as [z|].
    + destruct (priority z <=? priority x); intros [= <-]; auto.
      destruct (IH eq_refl). auto.
    + intros [= <-]. auto.
  - intros H. destruct (IH H). auto.
Qed.

Lemma best_waiting (now : Z) (l : list Job) :
  best now (filter (has_status waiting) l) = best now l.
Proof.
  induction l as [|x l IH]; simpl; auto.
  destruct (has_status waiting x) eqn:E; simpl.
  - now rewrite IH.
  - unfold ready. rewrite E. exact IH.
Qed.

Lemma created_in_order_filter (f : Job -> bool) (l : list Job) :
  created_in_order l -> created_in_order (filter f l).
Proof.
  unfold created_in_order. induction 1 as [|x l Hs IH Hall]; simpl.
  - constructor.
  - destruct (f x); auto. constructor; auto.
    rewrite Forall_forall in *. intros y Hy. apply Hall.
    now apply filter_In in Hy.
Qed.

Lemma find_ready_sorted (now : Z) (l : list Job) :
  created_in_order l -> find (ready now) (js_sort l) = best now l.
Proof.
  unfold created_in_order. induction 1 as [|x l Hs IH Hall]; simpl; auto.
  rewrite find_ready_insert by apply js_sort_sorted.
  rewrite IH. destruct (ready now x); auto.
  destruct (best now l) as [y|] eqn:Ey; auto.
  apply best_In in Ey as [Hy _].
  rewrite Forall_forall in Hall. specialize (Hall y Hy).
  destruct (compareJobs x y <=? 0) eqn:E1; destruct (priority y <=? priority x) eqn:E2;
    auto.
  - apply Z.leb_le, compareJobs_le in E1. apply Z.leb_gt in E2.
    unfold listed_before in E1. lia.
  - apply Z.leb_gt in E1. apply Z.leb_le in E2.
    assert (listed_before x y) by (unfold listed_before; lia).
    apply compareJobs_le in H. lia.
Qed.

Lemma getNextJob_scan (q : JobQueue) (now : Z) :
  fst (getNextJob q now)
  = option_map (fun job => claim job now) (option_map snd (scan now (jobs q))).
Proof.
  unfold getNextJob. destruct (scan now (jobs q)) as [[key job]|]; reflexivity.
Qed.

(** ** The retry transition *)

Lemma backoff_doubles (retryDelay : Z) (n : nat) :
  backoff retryDelay (S (S n)) = 2 * backoff retryDelay (S n).
Proof.
  unfold backoff.
  replace (Z.of_nat (S (S n)) - 1) with (Z.succ (Z.of_nat (S n) - 1)) by lia.
  rewrite Z.pow_succ_r by lia. ring.
Qed.

Lemma backoff_positive (retryDelay : Z) (n : nat) :
  0 < retryDelay -> 0 < backoff retryDelay (S n).
Proof.
  intros Hd. unfold backoff. apply Z.mul_pos_pos; auto.
  apply Z.pow_pos_nonneg; lia.
Qed.

(** C3 (as amended): when a job with [attempts < maxRetries] fails with an
    error that carries a message (the race rejects with a reason whose
    [message] is [message], or the timeout wins it and [message] is the
    timeout message), [executeJob] increments [attempts] by one, sets
    [processAt] to [now + retryDelay * 2^(attempts - 1)] for the new value
    of [attempts], sets the status back to waiting and records [message]
    as the job's error. With a positive [retryDelay], when the job, retried
    so many times, fails and is retried once more at a clock reading [later]
    that is not earlier than [now], its new [processAt] is strictly
    greater. *)
Theorem retry_transition (q : JobQueue) (key : string) (job : Job) (o : Outcome)
    (message : string) (now : Z)
    (Hget : map_get key (jobs q) = Some job)
    (Hprocessor : map_has (type job) (processors q) = true)
    (Hfails : o = Rejected (Some message)
              \/ (o = TimedOut /\ message = timeout_message job))
    (Hretries : (attempts job < maxRetries job)%nat) :
  exists job',
    map_get key (jobs (executeJob q key o now)) = Some job'
    /\ attempts job' = S (attempts job)
    /\ processAt job'
       = now + Cfg.retryDelay (config q) * 2 ^ (Z.of_nat (attempts job') - 1)
    /\ status job' = waiting
    /\ error job' = Some message
    /\ forall (q2 : JobQueue) (job2 : Job) (o2 : Outcome) (message2 : string)
         (later : Z),
         config q2 = config q ->
         map_get key (jobs q2) = Some job2 ->
         attempts job2 = attempts job' ->
         map_has (type job2) (processors q2) = true ->
         o2 = Rejected (Some message2)
         \/ (o2 = TimedOut /\ message2 = timeout_message job2) ->
         (attempts job2 < maxRetries job2)%nat ->
         0 < Cfg.retryDelay (config q) -> now <= later ->
         exists job'',
           map_get key (jobs (executeJob q2 key o2 later)) = Some job''
           /\ attempts job'' = S (attempts job')
           /\ processAt job' < processAt job''.
Proof.
  exists (retryJob_job (Cfg.retryDelay (config q)) job (Some message) now).
  split; [|repeat split].
  - unfold executeJob. rewrite Hget, Hprocessor. simpl.
    apply Nat.ltb_lt in Hretries.
    destruct Hfails as [->|[-> ->]]; rewrite Hretries; simpl;
      apply map_get_set_same.
  - intros q2 job2 o2 message2 later Hcfg Hget2 Hatt Hproc2 Hfails2 Hretries2 Hd
      Hlater.
    exists (retryJob_job (Cfg.retryDelay (config q)) job2 (Some message2) later).
    split; [|split].
    + unfold executeJob. rewrite Hget2, Hproc2. simpl.
      apply Nat.ltb_lt in Hretries2.
      destruct Hfails2 as [->|[-> ->]]; rewrite Hretries2; unfold retryJob; simpl;
        rewrite Hcfg; apply map_get_set_same.
    + simpl. now rewrite Hatt.
    + simpl in *. rewrite Hatt. rewrite backoff_doubles.
      pose proof (backoff_positive (attempts job) Hd). lia.
Qed.

(** C3 (counterexample): a job that may be retried three times fails at
    clock reading 1001010 and is retried with [processAt = 1006010]; a worker
    claims it again at 1007000; the clock is then set back, and the job
    fails for the second time at clock reading 10: it is retried with
    [processAt = 10010], which is not greater than 1006010. *)
Lemma retry_processAt_can_decrease :
  exists first second : Job,
    map_get "j1" (jobs (run (newJobQueue Cfg.no_input) backstep_first)) = Some first
    /\ map_get "j1" (jobs (run (newJobQueue Cfg.no_input) backstep_run))
       = Some second
    /\ 0 < Cfg.retryDelay (config (run (newJobQueue Cfg.no_input) backstep_run))
    /\ status first = waiting /\ attempts first = 1%nat
    /\ status second = waiting /\ attempts second = 2%nat
    /\ processAt first = 1006010 /\ processAt second = 10010
    /\ ~ processAt first < processAt second.
Proof.
  do 2 eexists. split; [vm_compute; reflexivity|].
  split; [vm_compute; reflexivity|].
  repeat split; vm_compute; congruence.
Qed.

(** ** How one step changes one job *)

Lemma executeJob_get (q : JobQueue) (key : string) (o : Outcome) (now : Z) :
  map_get key (jobs (executeJob q key o now))
  = option_map (fun job => settle q job o now) (map_get key (jobs q)).
Proof.
  unfold executeJob, settle.
  destruct (map_get key (jobs q)) as [job|] eqn:E; simpl; [|exact E].
  destruct (negb (map_has (type job) (processors q))); simpl.
  - apply map_get_set_same.
  - destruct o; try destruct (attempts job <? maxRetries job)%nat; simpl;
      first [apply map_get_set_same | exact E].
Qed.

Lemma executeJob_get_other (q : JobQueue) (key k : string) (o : Outcome) (now : Z) :
  k <> key -> map_get k (jobs (executeJob q key o now)) = map_get k (jobs q).
Proof.
  intros Hne. unfold executeJob.
  destruct (map_get key (jobs q)) as [job|]; auto.
  destruct (negb (map_has (type job) (processors q))); simpl.
  - now apply map_get_set_other.
  - destruct o; try destruct (attempts job <? maxRetries job)%nat; simpl;
      first [now apply map_get_set_other | reflexivity].
Qed.

Lemma executeJob_frame (q : JobQueue) (key : string) (o : Outcome) (now : Z) :
  processors (executeJob q key o now) = processors q
  /\ config (executeJob q key o now) = config q
  /\ map_keys (jobs (executeJob q key o now)) = map_keys (jobs q).
Proof.
  unfold executeJob.
  destruct (map_get key (jobs q)) as [job|] eqn:E; auto.
  destruct (negb (map_has (type job) (processors q))); simpl.
  - repeat split. eapply map_keys_set_present; eauto.
  - destruct o; try destruct (attempts job <? maxRetries job)%nat; simpl;
      repeat split; eapply map_keys_set_present; eauto.
Qed.

Lemma clean_fold_get (cutoff : Z) (k : string) (l : JsMap Job) acc :
  map_get k (fst (fold_left (clean_body cutoff) l acc)) = map_get k (fst acc)
  \/ map_get k (fst (fold_left (clean_body cutoff) l acc)) = None.
Proof.
  revert acc. induction l as [|e l IH]; intros acc; simpl; auto.
  destruct (IH (clean_body cutoff acc e)) as [H|H]; auto.
  rewrite H. unfold clean_body.
  destruct (is_old_terminal cutoff (snd e)); simpl; auto.
  destruct (String.eqb k (fst e)) eqn:E.
  - apply String.eqb_eq in E. subst k. right. apply map_get_delete_same.
  - apply String.eqb_neq in E. left. now apply map_get_delete_other.
Qed.

Lemma clean_get (q : JobQueue) (olderThan now : Z) (k : string) :
  map_get k (jobs (snd (clean q olderThan now))) = map_get k (jobs q)
  \/ map_get k (jobs (snd (clean q olderThan now))) = None.
Proof.
  unfold clean. cbv zeta.
  pose proof (clean_fold_get (now - olderThan) k (jobs q) (jobs q, 0%nat)) as H.
  destruct (fold_left _ _ _) as [m cleaned]. simpl in *.
  destruct (0 <? cleaned)%nat; simpl; exact H.
Qed.

Lemma scan_found (now : Z) (m : JsMap Job) (key : string) (job : Job) :
  scan now m = Some (key, job) -> In (key, job) m /\ ready now job = true.
Proof.
  intros H. pose proof (scan_scanned now m) as Hs.
  unfold scan in H. unfold scanned in Hs. rewrite H in Hs.
  destruct Hs as (_ & Hr & l1 & l2 & -> & _). split; auto.
  apply in_or_app. right. now left.
Qed.

Lemma held_active (q : JobQueue) (key : string) :
  held q key = true ->
  existsb (String.eqb key) (currentJobs q) = true
  /\ exists job, map_get key (jobs q) = Some job /\ status job = active.
Proof.
  unfold held. rewrite andb_true_iff. intros [Hin Hs]. split; auto.
  destruct (map_get key (jobs q)) as [job|]; [|discriminate].
  exists job. split; auto. now apply has_status_true.
Qed.


Lemma jobs_processLoop_getNextJob (q : JobQueue) (now : Z) :
  jobs (processLoop_getNextJob q now) = jobs (snd (getNextJob q now))
  /\ stats (processLoop_getNextJob q now) = stats (snd (getNextJob q now))
  /\ processors (processLoop_getNextJob q now) = processors q
  /\ config (processLoop_getNextJob q now) = config q
  /\ isRunning (processLoop_getNextJob q now) = isRunning q.
Proof.
  unfold processLoop_getNextJob, getNextJob.
  destruct (scan now (jobs q)) as [[k job]|]; simpl; auto.
Qed.

Lemma step_view (q : JobQueue) (now : Z) (op : Op) (key : string) :
  keys_unique (jobs q) ->
  view_change q now op key
    (map_get key (jobs q)) (map_get key (jobs (step q now op))).
Proof.
  intros Hk. destruct op as [newId jobType payload options|jobType| |
                             |k o|k message|k percent|jobId|olderThan| |jobId];
    simpl.
  - destruct (String.eqb key newId) eqn:E.
    + apply String.eqb_eq in E. subst newId.
      rewrite map_get_set_same. now eapply vc_add.
    + apply String.eqb_neq in E. rewrite map_get_set_other by exact E. constructor.
  - constructor.
  - constructor.
  - unfold processLoop_getNextJob, getNextJob.
    destruct (scan now (jobs q)) as [[k job]|] eqn:Es; simpl.
    + apply scan_found in Es as [Hin Hr].
      apply In_map_get in Hin; [|exact Hk].
      destruct (String.eqb key k) eqn:E.
      * apply String.eqb_eq in E. subst k.
        rewrite map_get_set_same, Hin. apply vc_claim; auto.
        now apply ready_spec in Hr.
      * apply String.eqb_neq in E. rewrite map_get_set_other by exact E.
        constructor.
    + constructor.
  - destruct (held q k) eqn:Eh; [|constructor].
    apply held_active in Eh as (_ & job & Ej & Ea).
    unfold processLoop_executeJob. simpl.
    destruct (String.eqb key k) eqn:E.
    + apply String.eqb_eq in E. subst k.
      rewrite executeJob_get, Ej. simpl. apply vc_settle; auto.
    + apply String.eqb_neq in E. rewrite executeJob_get_other by exact E.
      constructor.
  - unfold logJob, write_job.
    destruct (map_get k (jobs q)) as [job|] eqn:Ej; [|constructor]. simpl.
    destruct (String.eqb key k) eqn:E.
    + apply String.eqb_eq in E. subst k.
      rewrite map_get_set_same, Ej. now apply vc_touch.
    + apply String.eqb_neq in E. rewrite map_get_set_other by exact E.
      constructor.
  - unfold updateJobProgress, write_job.
    destruct (map_get k (jobs q)) as [job|] eqn:Ej; [|constructor]. simpl.
    destruct (String.eqb key k) eqn:E.
    + apply String.eqb_eq in E. subst k.
      rewrite map_get_set_same, Ej. now apply vc_touch.
    + apply String.eqb_neq in E. rewrite map_get_set_other by exact E.
      constructor.
  - unfold remove. destruct (map_get jobId (jobs q)) as [job|] eqn:Ej;
      [|constructor].
    destruct (has_status active job); simpl; [constructor|].
    destruct (String.eqb key jobId) eqn:E.
    + apply String.eqb_eq in E. subst jobId.
      rewrite map_get_delete_same. constructor.
    + apply String.eqb_neq in E. rewrite map_get_delete_other by exact E.
      constructor.
  - destruct (clean_get q olderThan now key) as [H|H]; rewrite H; constructor.
  - constructor.
  - unfold delayTimer. destruct (map_get jobId (jobs q)) as [job|]; [|constructor].
    destruct (has_status waiting job); constructor.
Qed.

(** ** Invariants of runs *)

Lemma map_keys_set_in (V : Type) (m : JsMap V) (k x : string) (v : V) :
  In x (map_keys (map_set k v m)) -> x = k \/ In x (map_keys m).
Proof.
  induction m as [|[k0 v0] m IH]; simpl.
  - intros [H|[]]; auto.
  - destruct (String.eqb k k0); simpl; intros [H|H]; auto.
    destruct (IH H); auto.
Qed.

Lemma keys_unique_set (m : JsMap Job) (k : string) (v : Job) :
  keys_unique m -> keys_unique (map_set k v m).
Proof.
  unfold keys_unique. induction m as [|[k0 v0] m IH]; simpl; intros Hnd.
  - constructor; auto.
  - inversion Hnd as [|? ? Hnotin Hnd']; subst.
    destruct (String.eqb k k0) eqn:E; simpl.
    + constructor; auto.
    + constructor; auto. intros Hin.
      apply map_keys_set_in in Hin as [->|Hin]; auto.
      now rewrite String.eqb_refl in E.
Qed.

Lemma clean_fold_keys (cutoff : Z) (l : JsMap Job) acc :
  keys_unique (fst acc) -> keys_unique (fst (fold_left (clean_body cutoff) l acc)).
Proof.
  revert acc. induction l as [|e l IH]; intros acc Hk; simpl; auto.
  apply IH. unfold clean_body.
  destruct (is_old_terminal cutoff (snd e)); simpl; auto.
  now apply keys_unique_filter.
Qed.

Lemma step_keys_unique (q : JobQueue) (now : Z) (op : Op) :
  keys_unique (jobs q) -> keys_unique (jobs (step q now op)).
Proof.
  intros Hk. destruct op; simpl; auto.
  - now apply keys_unique_set.
  - unfold processLoop_getNextJob, getNextJob.
    destruct (scan now (jobs q)) as [[k job]|]; simpl; auto.
    now apply keys_unique_set.
  - destruct (held q key); auto.
    unfold processLoop_executeJob, keys_unique. simpl.
    destruct (executeJob_frame q key o now) as (_ & _ & ->).
    exact Hk.
  - unfold logJob, write_job. destruct (map_get key (jobs q)); simpl; auto.
    now apply keys_unique_set.
  - unfold updateJobProgress, write_job. destruct (map_get key (jobs q)); simpl; auto.
    now apply keys_unique_set.
  - unfold remove. destruct (map_get jobId (jobs q)) as [job|]; auto.
    destruct (has_status active job); simpl; auto.
    now apply keys_unique_filter.
  - unfold clean. cbv zeta.
    pose proof (@clean_fold_keys (now - olderThan) (jobs q) (jobs q, 0%nat) Hk) as H.
    destruct (fold_left _ _ _) as [m cleaned]. simpl in *.
    destruct (0 <? cleaned)%nat; exact H.
  - unfold delayTimer. destruct (map_get jobId (jobs q)) as [job|]; auto.
    destruct (has_status waiting job); auto.
Qed.

Lemma step_processors (q : JobQueue) (now : Z) (op : Op) (t : string) :
  map_has t (processors q) = true -> map_has t (processors (step q now op)) = true.
Proof.
  intros Ht. destruct op; simpl; auto.
  - unfold map_has in *. destruct (String.eqb t jobType) eqn:E.
    + apply String.eqb_eq in E. subst. now rewrite map_get_set_same.
    + apply String.eqb_neq in E. now rewrite map_get_set_other.
  - unfold processLoop_getNextJob, getNextJob.
    destruct (scan now (jobs q)) as [[k job]|]; auto.
  - destruct (held q key); auto.
    unfold processLoop_executeJob. simpl.
    destruct (executeJob_frame q key o now) as (-> & _). exact Ht.
  - unfold logJob, write_job. destruct (map_get key (jobs q)); auto.
  - unfold updateJobProgress, write_job. destruct (map_get key (jobs q)); auto.
  - unfold remove. destruct (map_get jobId (jobs q)) as [job|]; auto.
    destruct (has_status active job); auto.
  - unfold clean. cbv zeta. destruct (fold_left _ _ _) as [m cleaned].
    simpl. destruct (0 <? cleaned)%nat; auto.
  - unfold delayTimer. destruct (map_get jobId (jobs q)) as [job|]; auto.
    destruct (has_status waiting job); auto.
Qed.

Lemma settle_sound (q : JobQueue) (j : Job) (o : Outcome) (now : Z) :
  (attempts j <= maxRetries j)%nat ->
  ((0 < attempts j)%nat -> map_has (type j) (processors q) = true) ->
  (attempts (settle q j o now) <= maxRetries (settle q j o now))%nat
  /\ ((0 < attempts (settle q j o now))%nat ->
      map_has (type (settle q j o now)) (processors q) = true).
Proof.
  intros Hle Hp. unfold settle.
  destruct (map_has (type j) (processors q)) eqn:Eh; simpl.
  - destruct o; simpl; auto;
      destruct (attempts j <? maxRetries j)%nat eqn:El; simpl; auto;
      apply Nat.ltb_lt in El; split; auto; lia.
  - rewrite Eh. auto.
Qed.

Ltac stored_before Hs :=
  let Hle := fresh "Hle" in
  let Hp := fresh "Hp" in
  match goal with
  | H : map_get ?k (jobs ?q) = Some ?j |- _ => destruct (Hs k j H) as [Hle Hp]
  | H : Some ?j = map_get ?k (jobs ?q) |- _ =>
      symmetry in H; destruct (Hs k j H) as [Hle Hp]
  end.

Lemma step_sound (q : JobQueue) (now : Z) (op : Op) :
  keys_unique (jobs q) -> sound q -> sound (step q now op).
Proof.
  intros Hk Hs k j' Hnew.
  pose proof (step_view q now op k Hk) as Hv. rewrite Hnew in Hv. clear Hnew.
  inversion Hv; subst; clear Hv.
  - stored_before Hs. split; auto.
    intros Hpos. now apply step_processors, Hp.
  - stored_before Hs.
    repeat match goal with H : _ j' = _ |- _ => rewrite H; clear H end.
    split; auto. intros Hpos. now apply step_processors, Hp.
  - stored_before Hs. simpl. split; auto.
    intros Hpos. now apply (step_processors q now OpGetNextJob), Hp.
  - stored_before Hs.
    destruct (settle_sound q j o now Hle Hp) as [Hle' Hp']. split; auto.
    intros Hpos. now apply step_processors, Hp'.
  - simpl. split; [lia|intros Hpos; lia].
Qed.

Lemma run_invariant (ops : list (Z * Op)) (q : JobQueue) :
  keys_unique (jobs q) -> sound q ->
  keys_unique (jobs (run q ops)) /\ sound (run q ops).
Proof.
  revert q. induction ops as [|[now op] ops IH]; intros q Hk Hs; simpl; auto.
  apply IH; [now apply step_keys_unique | now apply step_sound].
Qed.

Lemma newJobQueue_invariant (c : Cfg.input) :
  keys_unique (jobs (newJobQueue c)) /\ sound (newJobQueue c).
Proof.
  split.
  - constructor.
  - intros k j H. discriminate H.
Qed.

Lemma calls_processor_inv (q : JobQueue) (key : string) (op : Op) :
  calls_processor q key op = true ->
  exists o job,
    op = OpExecuteJob key o
    /\ held q key = true
    /\ map_get key (jobs q) = Some job
    /\ status job = active
    /\ map_has (type job) (processors q) = true.
Proof.
  destruct op; simpl; try discriminate.
  rewrite !andb_true_iff. intros [[Hk Hh] Hp].
  apply String.eqb_eq in Hk. subst key0.
  destruct (held_active q key Hh) as (_ & job & Hget & Ha).
  rewrite Hget in Hp. exists o, job. auto.
Qed.

Lemma issued_cons (key : string) (now : Z) (op : Op) (rest : list (Z * Op)) :
  In key (issued ((now, op) :: rest)) <-> adds key op = true \/ In key (issued rest).
Proof.
  destruct op; simpl; try (split; [auto | intros [H|H]; [discriminate H | exact H]]).
  rewrite String.eqb_eq. split; intros [H|H]; auto.
Qed.

Lemma issued_tail (now : Z) (op : Op) (rest : list (Z * Op)) :
  NoDup (issued ((now, op) :: rest)) ->
  NoDup (issued rest)
  /\ forall key, adds key op = true -> ~ In key (issued rest).
Proof.
  destruct op; simpl; intros H; try (split; [exact H|discriminate]).
  inversion H; subst. split; auto.
  intros key Hk. apply String.eqb_eq in Hk. now subst.
Qed.

Lemma dead_step (q : JobQueue) (now : Z) (op : Op) (key : string) :
  keys_unique (jobs q) -> dead key q -> adds key op = false ->
  dead key (step q now op) /\ calls_processor q key op = false.
Proof.
  intros Hk Hd Ha. split.
  - pose proof (step_view q now op key Hk) as Hv. unfold dead in *.
    inversion Hv as [old Ho Hn|old Ho Hn|j j' H1 H2 H3 H4 Ho Hn|j Hop Hw Ho Hn
                     |j o Hop Hact Ho Hn|old jobType payload options Hop Ho Hn];
      rewrite <- Hn in *; clear Hn; auto.
    + rewrite <- Ho in Hd. congruence.
    + rewrite <- Ho in Hd. congruence.
    + rewrite <- Ho in Hd. congruence.
    + subst op. simpl in Ha. now rewrite String.eqb_refl in Ha.
  - destruct (calls_processor q key op) eqn:Ec; auto.
    apply calls_processor_inv in Ec as (o & job & _ & _ & Hget & Hact & _).
    unfold dead in Hd. rewrite Hget in Hd. congruence.
Qed.

Lemma dead_run (key : string) (ops : list (Z * Op)) (q : JobQueue) :
  keys_unique (jobs q) -> dead key q -> ~ In key (issued ops) ->
  dead key (run q ops) /\ invocations key q ops = 0%nat.
Proof.
  revert q. induction ops as [|[now op] ops IH]; intros q Hk Hd Hn; simpl; auto.
  assert (Ha : adds key op = false).
  { destruct (adds key op) eqn:E; auto. exfalso. apply Hn, issued_cons. now left. }
  destruct (dead_step q now op key Hk Hd Ha) as [Hd' ->].
  apply IH; auto.
  - now apply step_keys_unique.
  - intros Hin. apply Hn, issued_cons. now right.
Qed.

(** ** More about the map *)

Lemma map_keys_get (V : Type) (m : JsMap V) (k : string) :
  In k (map_keys m) <-> exists v, map_get k m = Some v.
Proof.
  induction m as [|[k0 v0] m IH]; simpl.
  - split; [intros []|intros [v H]; discriminate H].
  - destruct (String.eqb k k0) eqn:E.
    + apply String.eqb_eq in E. subst k0. split; eauto.
    + apply String.eqb_neq in E. rewrite <- IH. split; [|auto].
      intros [H|H]; [congruence|exact H].
Qed.

Lemma map_set_absent (V : Type) (m : JsMap V) (k : string) (v : V) :
  map_get k m = None -> map_set k v m = m ++ [(k, v)].
Proof.
  induction m as [|[k0 v0] m IH]; simpl; auto.
  destruct (String.eqb k k0); [discriminate|].
  intros H. now rewrite IH.
Qed.

Lemma map_set_present (V : Type) (m : JsMap V) (k : string) (v v0 : V) :
  map_get k m = Some v0 ->
  exists l1 l2,
    m = l1 ++ (k, v0) :: l2 /\ map_set k v m = l1 ++ (k, v) :: l2.
Proof.
  induction m as [|[k0 v1] m IH]; simpl; [discriminate|].
  destruct (String.eqb k k0) eqn:E.
  - apply String.eqb_eq in E. subst k0. intros [= ->]. now exists [], m.
  - intros H. destruct (IH H) as (l1 & l2 & -> & ->).
    now exists ((k0, v1) :: l1), l2.
Qed.

Lemma map_get_filter (m : JsMap Job) (f : string * Job -> bool) (k : string) :
  keys_unique m ->
  map_get k (filter f m)
  = match map_get k m with
    | Some j => if f (k, j) then Some j else None
    | None => None
    end.
Proof.
  unfold keys_unique, map_keys.
  induction m as [|[k0 j0] m IH]; simpl; auto.
  intros Hnd. inversion Hnd as [|? ? Hnotin Hnd']; subst.
  destruct (String.eqb k k0) eqn:E.
  - apply String.eqb_eq in E. subst k0.
    destruct (f (k, j0)); simpl.
    + now rewrite String.eqb_refl.
    + rewrite IH by exact Hnd'.
      destruct (map_get k m) as [j|] eqn:Ej; auto.
      exfalso. apply Hnotin. apply map_keys_get. eauto.
  - destruct (f (k0, j0)); simpl; [rewrite E|]; now apply IH.
Qed.

(** ** The exact change of one job in one step *)

Lemma step_change (q : JobQueue) (now : Z) (op : Op) (key : string) :
  keys_unique (jobs q) ->
  job_change q now op key
    (map_get key (jobs q)) (map_get key (jobs (step q now op))).
Proof.
  intros Hk. destruct op as [newId jobType payload options|jobType| |
                             |k o|k message|k percent|jobId|olderThan| |jobId];
    simpl.
  - destruct (String.eqb key newId) eqn:E.
    + apply String.eqb_eq in E. subst newId.
      rewrite map_get_set_same. now eapply jc_add.
    + apply String.eqb_neq in E. rewrite map_get_set_other by exact E. constructor.
  - constructor.
  - constructor.
  - unfold processLoop_getNextJob, getNextJob.
    destruct (scan now (jobs q)) as [[k job]|] eqn:Es; simpl.
    + apply scan_found in Es as [Hin Hr].
      apply In_map_get in Hin; [|exact Hk].
      destruct (String.eqb key k) eqn:E.
      * apply String.eqb_eq in E. subst k.
        rewrite map_get_set_same, Hin. now apply jc_claim.
      * apply String.eqb_neq in E. rewrite map_get_set_other by exact E.
        constructor.
    + constructor.
  - destruct (held q k) eqn:Eh; [|constructor].
    apply held_active in Eh as (_ & job & Ej & Ea).
    unfold processLoop_executeJob. simpl.
    destruct (String.eqb key k) eqn:E.
    + apply String.eqb_eq in E. subst k.
      rewrite executeJob_get, Ej. simpl. apply jc_settle; auto.
    + apply String.eqb_neq in E. rewrite executeJob_get_other by exact E.
      constructor.
  - unfold logJob, write_job.
    destruct (map_get k (jobs q)) as [job|] eqn:Ej; [|constructor]. simpl.
    destruct (String.eqb key k) eqn:E.
    + apply String.eqb_eq in E. subst k.
      rewrite map_get_set_same, Ej. now apply jc_log.
    + apply String.eqb_neq in E. rewrite map_get_set_other by exact E.
      constructor.
  - unfold updateJobProgress, write_job.
    destruct (map_get k (jobs q)) as [job|] eqn:Ej; [|constructor]. simpl.
    destruct (String.eqb key k) eqn:E.
    + apply String.eqb_eq in E. subst k.
      rewrite map_get_set_same, Ej. now apply jc_progress.
    + apply String.eqb_neq in E. rewrite map_get_set_other by exact E.
      constructor.
  - unfold remove. destruct (map_get jobId (jobs q)) as [job|] eqn:Ej;
      [|constructor].
    destruct (has_status active job) eqn:Ea; simpl; [constructor|].
    destruct (String.eqb key jobId) eqn:E.
    + apply String.eqb_eq in E. subst jobId.
      rewrite map_get_delete_same, Ej. apply jc_removed; auto.
      now apply has_status_false.
    + apply String.eqb_neq in E. rewrite map_get_delete_other by exact E.
      constructor.
  - destruct (clean_result q olderThan now Hk) as (_ & -> & _).
    rewrite map_get_filter by exact Hk.
    destruct (map_get key (jobs q)) as [j|]; [|constructor]. simpl.
    destruct (is_old_terminal (now - olderThan) j) eqn:Eo; simpl.
    + now eapply jc_swept.
    + constructor.
  - constructor.
  - unfold delayTimer. destruct (map_get jobId (jobs q)) as [job|]; [|constructor].
    destruct (has_status waiting job); constructor.
Qed.

Lemma absent_stays_absent (key : string) (ops : list (Z * Op)) (q : JobQueue) :
  keys_unique (jobs q) -> map_get key (jobs q) = None -> ~ In key (issued ops) ->
  map_get key (jobs (run q ops)) = None.
Proof.
  revert q. induction ops as [|[now op] ops IH]; intros q Hk Hnone Hn; simpl; auto.
  apply IH.
  - now apply step_keys_unique.
  - pose proof (step_change q now op key Hk) as Hc. rewrite Hnone in Hc.
    inversion Hc as [old Ho Hn'| | | | | | |old jobType payload options Hop Ho Hn'];
      auto.
    exfalso. apply Hn. subst op. simpl. now left.
  - intros Hin. apply Hn, issued_cons. now right.
Qed.

(** ** The jobs that workers hold *)

Lemma existsb_released (key k : string) (l : list string) :
  existsb (String.eqb key) (filter (fun x => negb (String.eqb k x)) l)
  = negb (String.eqb k key) && existsb (String.eqb key) l.
Proof.
  induction l as [|x l IH]; simpl.
  - now rewrite andb_false_r.
  - destruct (String.eqb k x) eqn:Ex; simpl; rewrite IH.
    + apply String.eqb_eq in Ex. subst x.
      destruct (String.eqb key k) eqn:Ek; simpl; auto.
      apply String.eqb_eq in Ek. subst k. now rewrite String.eqb_refl.
    + destruct (String.eqb key x) eqn:Ekx; simpl; auto.
      apply String.eqb_eq in Ekx. subst x. now rewrite Ex.
Qed.

(** Which keys the workers hold after a step. *)
Lemma step_currentJobs (q : JobQueue) (now : Z) (op : Op) (key : string) :
  existsb (String.eqb key) (currentJobs (step q now op))
  = match op with
    | OpGetNextJob =>
        match scan now (jobs q) with
        | Some (k, _) => String.eqb key k || existsb (String.eqb key) (currentJobs q)
        | None => existsb (String.eqb key) (currentJobs q)
        end
    | OpExecuteJob k _ =>
        if held q k
        then negb (String.eqb k key) && existsb (String.eqb key) (currentJobs q)
        else existsb (String.eqb key) (currentJobs q)
    | _ => existsb (String.eqb key) (currentJobs q)
    end.
Proof.
  destruct op as [newId jobType payload options|jobType| |
                  |k o|k message|k percent|jobId|olderThan| |jobId]; simpl; auto.
  - unfold processLoop_getNextJob, getNextJob.
    destruct (scan now (jobs q)) as [[k job]|]; reflexivity.
  - destruct (held q k); auto. simpl. apply existsb_released.
  - unfold logJob, write_job. now destruct (map_get k (jobs q)).
  - unfold updateJobProgress, write_job. now destruct (map_get k (jobs q)).
  - unfold remove. destruct (map_get jobId (jobs q)) as [job|]; auto.
    now destruct (has_status active job).
  - unfold clean. cbv zeta. destruct (fold_left _ _ _) as [m cleaned]. simpl.
    now destruct (0 <? cleaned)%nat.
  - unfold delayTimer. destruct (map_get jobId (jobs q)) as [job|]; auto.
    now destruct (has_status waiting job).
Qed.

Lemma step_quiet (q : JobQueue) (now : Z) (op : Op) (key : string) (j j' : Job) :
  keys_unique (jobs q) ->
  map_get key (jobs q) = Some j ->
  map_get key (jobs (step q now op)) = Some j' ->
  adds key op = false -> calls_processor q key op = false ->
  attempts j' = attempts j
  /\ ((status j' = status j
       /\ existsb (String.eqb key) (currentJobs (step q now op))
          = existsb (String.eqb key) (currentJobs q))
      \/ status j = waiting
      \/ held q key = true).
Proof.
  intros Hk Hget Hafter Hnew Hcall.
  pose proof (step_change q now op key Hk) as Hc. rewrite Hget, Hafter in Hc.
  rewrite step_currentJobs.
  inversion Hc as [old| | |j0 message Hop|j0 percent Hop
                   |j0 Hop Hr|j0 o Hop Ha|old jobType payload options Hop];
    subst.
  - split; auto.
    destruct op as [newId jobType payload options|jobType| |
                    |k o|k message|k percent|jobId|olderThan| |jobId]; auto.
    + destruct (scan now (jobs q)) as [[k job]|] eqn:Es; auto.
      apply scan_found in Es as [Hin Hr].
      apply In_map_get in Hin; [|exact Hk].
      destruct (String.eqb key k) eqn:E; auto.
      apply String.eqb_eq in E. subst k.
      apply ready_spec in Hr as [Hw _]. right. left. congruence.
    + destruct (held q k) eqn:Eh; auto.
      destruct (String.eqb k key) eqn:E; auto.
      apply String.eqb_eq in E. subst k. auto.
  - simpl. auto.
  - simpl. auto.
  - apply ready_spec in Hr as [Hw _]. simpl. auto.
  - destruct (held q key) eqn:Eh.
    + split; auto.
      simpl in Hcall. rewrite String.eqb_refl, Eh, Hget in Hcall. simpl in Hcall.
      unfold settle. rewrite Hcall. reflexivity.
    + simpl in Hafter. rewrite Eh, Hget in Hafter. injection Hafter as Hsame.
      rewrite <- Hsame. auto.
  - simpl in Hnew. now rewrite String.eqb_refl in Hnew.
Qed.

Lemma stranded_step (q : JobQueue) (now : Z) (op : Op) (key : string) (a : nat) :
  keys_unique (jobs q) -> stranded key a q -> adds key op = false ->
  stranded key a (step q now op) /\ calls_processor q key op = false.
Proof.
  intros Hk (Hfree & j & Hget & Hact & Hatt) Hnew.
  assert (Hnot : held q key = false).
  { unfold held. now rewrite Hfree. }
  assert (Hcall : calls_processor q key op = false).
  { destruct (calls_processor q key op) eqn:Ec; auto.
    apply calls_processor_inv in Ec as (o & job & _ & Hh & _). congruence. }
  split; [|exact Hcall]. split.
  - rewrite step_currentJobs.
    destruct op as [newId jobType payload options|jobType| |
                    |k o|k message|k percent|jobId|olderThan| |jobId]; auto.
    + destruct (scan now (jobs q)) as [[k job]|] eqn:Es; auto.
      apply scan_found in Es as [Hin Hr].
      apply In_map_get in Hin; [|exact Hk].
      destruct (String.eqb key k) eqn:E; auto.
      apply String.eqb_eq in E. subst k.
      apply ready_spec in Hr as [Hw _]. congruence.
    + destruct (held q k); auto. rewrite Hfree. apply andb_false_r.
  - destruct (map_get key (jobs (step q now op))) as [j'|] eqn:Hafter.
    + destruct (@step_quiet q now op key j j' Hk Hget Hafter Hnew Hcall)
        as [Hatt' [[Hst _]|[Hw|Hh]]]; try congruence.
      exists j'. split; auto. split; congruence.
    + pose proof (step_change q now op key Hk) as Hc. rewrite Hget, Hafter in Hc.
      inversion Hc as [ |j0 Hop Hs|j0 d Hop Hs| | | | | ]; subst.
      * congruence.
      * apply is_old_terminal_spec in Hs. destruct Hs as [[Hs|Hs] _]; congruence.
Qed.

Lemma stranded_run (key : string) (a : nat) (ops : list (Z * Op)) (q : JobQueue) :
  keys_unique (jobs q) -> stranded key a q -> ~ In key (issued ops) ->
  stranded key a (run q ops) /\ invocations key q ops = 0%nat.
Proof.
  revert q. induction ops as [|[now op] ops IH]; intros q Hk Hs Hn; simpl; auto.
  assert (Ha : adds key op = false).
  { destruct (adds key op) eqn:E; auto. exfalso. apply Hn, issued_cons. now left. }
  destruct (@stranded_step q now op key a Hk Hs Ha) as [Hs' ->].
  apply IH; auto.
  - now apply step_keys_unique.
  - intros Hin. apply Hn, issued_cons. now right.
Qed.



(** ** A rejection without a reason *)

(** C2 (the defect): in every run, when a worker holds a job whose
    processor is registered and the race rejects with [null] or
    [undefined], the processor has been called, [executeJob] throws, and
    the job is left as it was, active, whatever [attempts] and [maxRetries]
    are, so also when [attempts = maxRetries]: it is not failed. From then
    on no worker holds it: in every continuation that does not draw the
    identifier again the job stays stored and active with the same
    [attempts], and its processor is never called again. *)
Theorem nullish_rejection_strands_job (c : Cfg.input) (ops : list (Z * Op))
    (key : string) (job : Job) (later : Z)
    (Hget : map_get key (jobs (run (newJobQueue c) ops)) = Some job)
    (Hheld : held (run (newJobQueue c) ops) key = true)
    (Hprocessor : map_has (type job) (processors (run (newJobQueue c) ops)) = true) :
  calls_processor (run (newJobQueue c) ops) key (OpExecuteJob key RejectedNullish)
  = true
  /\ executeJob_throws (run (newJobQueue c) ops) key RejectedNullish = true
  /\ executeJob (run (newJobQueue c) ops) key RejectedNullish later
     = run (newJobQueue c) ops
  /\ status job = active
  /\ forall more : list (Z * Op), ~ In key (issued more) ->
       (exists job',
          map_get key
            (jobs (run (step (run (newJobQueue c) ops) later
                          (OpExecuteJob key RejectedNullish)) more))
          = Some job'
          /\ status job' = active /\ attempts job' = attempts job)
       /\ invocations key
            (step (run (newJobQueue c) ops) later
               (OpExecuteJob key RejectedNullish)) more = 0%nat.
Proof.
  destruct (newJobQueue_invariant c) as [Hk0 Hs0].
  destruct (@run_invariant ops (newJobQueue c) Hk0 Hs0) as [Hk _].
  set (q := run (newJobQueue c) ops) in *.
  destruct (held_active q key Hheld) as (Hin & j & Hj & Ha).
  rewrite Hget in Hj. injection Hj as <-.
  assert (Hexec : executeJob q key RejectedNullish later = q).
  { unfold executeJob. now rewrite Hget, Hprocessor. }
  split; [|split; [|split; [|split]]]; auto.
  - simpl. now rewrite String.eqb_refl, Hheld, Hget.
  - unfold executeJob_throws. now rewrite Hget.
  - intros more Hmore.
    assert (Hs : stranded key (attempts job)
                   (step q later (OpExecuteJob key RejectedNullish))).
    { simpl. rewrite Hheld. unfold stranded, processLoop_executeJob. simpl.
      rewrite Hexec, existsb_released, String.eqb_refl. split; auto.
      exists job. auto. }
    assert (Hk' : keys_unique
                    (jobs (step q later (OpExecuteJob key RejectedNullish)))).
    { now apply step_keys_unique. }
    destruct (@stranded_run key (attempts job) more _ Hk' Hs Hmore)
      as [(_ & job' & Hj' & Ha' & Hatt) Hinv].
    split; [|exact Hinv]. exists job'. auto.
Qed.

Lemma nullish_rejection_strands_job_witness :
  attempts flaky_job = maxRetries flaky_job
  /\ executeJob (run (newJobQueue Cfg.no_input) flaky_run) "j1" RejectedNullish 8010
     = run (newJobQueue Cfg.no_input) flaky_run
  /\ status flaky_job = active.
Proof.
  destruct (@nullish_rejection_strands_job Cfg.no_input flaky_run "j1" flaky_job
              8010 eq_refl eq_refl eq_refl)
    as (_ & _ & Hsame & Hactive & _).
  split; [reflexivity|]. split; [exact Hsame | exact Hactive].
Defined.

(** ** The retry budget *)



(** ** Jobs without a processor *)

(** C5: in every run, when a worker holds a job whose type has no
    processor, the job has never been retried; [executeJob] calls no
    processor, sets the status to failed, records the no-processor message
    as the error and leaves [attempts] at 0 whatever [maxRetries] is; from
    then on the job stays failed until it is removed (so no worker holds it
    again) and no processor is ever called for it. *)
Theorem no_processor_fails_at_once (c : Cfg.input) (ops : list (Z * Op))
    (key : string) (job : Job) (o : Outcome) (later : Z)
    (Hget : map_get key (jobs (run (newJobQueue c) ops)) = Some job)
    (Hheld : status job = active)
    (Hnone : map_has (type job) (processors (run (newJobQueue c) ops)) = false) :
  attempts job = 0%nat
  /\ calls_processor (run (newJobQueue c) ops) key (OpExecuteJob key o) = false
  /\ exists job',
       map_get key (jobs (executeJob (run (newJobQueue c) ops) key o later))
       = Some job'
       /\ status job' = failed
       /\ error job' = Some ("No processor found for job type: " ++ type job)%string
       /\ attempts job' = 0%nat
       /\ maxRetries job' = maxRetries job
       /\ forall more : list (Z * Op), ~ In key (issued more) ->
            match map_get key
                    (jobs (run (executeJob (run (newJobQueue c) ops) key o later)
                             more)) with
            | Some job'' => status job'' = failed
            | None => True
            end
            /\ invocations key (executeJob (run (newJobQueue c) ops) key o later)
                 more = 0%nat.
Proof.
  destruct (newJobQueue_invariant c) as [Hk0 Hs0].
  destruct (@run_invariant ops (newJobQueue c) Hk0 Hs0) as [Hk Hs].
  set (q := run (newJobQueue c) ops) in *.
  destruct (Hs key job Hget) as [_ Hp].
  assert (Hzero : attempts job = 0%nat).
  { destruct (attempts job) as [|a]; auto.
    rewrite Hp in Hnone by lia. discriminate. }
  split; [exact Hzero|split].
  - simpl. rewrite Hget, Hnone. apply andb_false_r.
  - exists (failJob_job job (Some (no_processor_message job)) later).
    assert (Hget' : map_get key (jobs (executeJob q key o later))
                    = Some (failJob_job job (Some (no_processor_message job)) later)).
    { rewrite executeJob_get, Hget. simpl. unfold settle. now rewrite Hnone. }
    repeat split; auto.
    + apply dead_run; auto.
      * unfold keys_unique.
        destruct (executeJob_frame q key o later) as (_ & _ & ->). exact Hk.
      * unfold dead. now rewrite Hget'.
    + apply dead_run; auto.
      * unfold keys_unique.
        destruct (executeJob_frame q key o later) as (_ & _ & ->). exact Hk.
      * unfold dead. now rewrite Hget'.
Qed.

Lemma no_processor_fails_at_once_witness :
  exists job',
    map_get "j9" (jobs (executeJob (run (newJobQueue Cfg.no_input) orphan_run)
                          "j9" (Resolved JsNull) 20)) = Some job'
    /\ status job' = failed /\ attempts job' = 0%nat.
Proof.
  destruct (@no_processor_fails_at_once Cfg.no_input orphan_run "j9" orphan_job
              (Resolved JsNull) 20 eq_refl eq_refl eq_refl)
    as (_ & _ & job' & H1 & H2 & _ & H3 & _).
  exists job'. auto.
Defined.

Lemma retry_transition_witness :
  exists job' job'',
    map_get "j1"
      (jobs (executeJob (run (newJobQueue Cfg.no_input) backstep_claimed) "j1"
               (Rejected (Some "boom")) 1001010)) = Some job'
    /\ attempts job' = 1%nat /\ processAt job' = 1006010 /\ status job' = waiting
    /\ error job' = Some "boom"
    /\ map_get "j1"
         (jobs (executeJob (run (newJobQueue Cfg.no_input) backstep_again) "j1"
                  TimedOut 1007010)) = Some job''
    /\ processAt job' < processAt job''.
Proof.
  destruct (@retry_transition (run (newJobQueue Cfg.no_input) backstep_claimed) "j1"
              backstep_job (Rejected (Some "boom")) "boom" 1001010
              eq_refl eq_refl (or_introl eq_refl) ltac:(vm_compute; lia))
    as (job' & H1 & H2 & H3 & H4 & H5 & Hmono).
  destruct (Hmono (run (newJobQueue Cfg.no_input) backstep_again)
              (claim job' 1007000) TimedOut
              (timeout_message (claim job' 1007000)) 1007010)
    as (job'' & H6 & _ & H7).
  - reflexivity.
  - vm_compute in H1. injection H1 as <-. reflexivity.
  - reflexivity.
  - vm_compute in H1. injection H1 as <-. reflexivity.
  - right. split; reflexivity.
  - vm_compute in H1. injection H1 as <-. vm_compute. lia.
  - reflexivity.
  - lia.
  - exists job', job''. repeat split; auto.
    rewrite H3, H2. reflexivity.
Defined.

Lemma remove_spec_witness :
  remove (run (newJobQueue Cfg.no_input) flaky_run) "j1" 8000
  = (false, run (newJobQueue Cfg.no_input) flaky_run).
Proof.
  exact (proj1 (@remove_spec (run (newJobQueue Cfg.no_input) flaky_run) "j1" 8000
                  flaky_job eq_refl) eq_refl).
Defined.

Lemma clean_spec_witness :
  fst (clean (run (newJobQueue Cfg.no_input) done_run) 100 5000) = 1%nat
  /\ clean (snd (clean (run (newJobQueue Cfg.no_input) done_run) 100 5000)) 100 5000
     = (0%nat, snd (clean (run (newJobQueue Cfg.no_input) done_run) 100 5000)).
Proof.
  assert (Hkeys : keys_unique (jobs (run (newJobQueue Cfg.no_input) done_run))).
  { unfold keys_unique. simpl. constructor.
    - intros [H|[]]. discriminate H.
    - constructor; [intros []|constructor]. }
  destruct (@clean_spec (run (newJobQueue Cfg.no_input) done_run) 100 5000 Hkeys)
    as (_ & Hcount & Hagain).
  split; [rewrite Hcount; reflexivity | exact Hagain].
Defined.

(** ** Scenarios *)

(** On a running queue, a job of priority 10 added after a job of priority 5
    is claimed first. *)
Example higher_priority_starts_first :
  let q0 := process (newJobQueue Cfg.no_input) "resize" (fun _ => 0) in
  let q1 := snd (add q0 "a" "resize" JsNull (Opt.mk (Some 5) None None None) 1
                   (fun _ => 1)) in
  let q := snd (add q1 "b" "resize" JsNull (Opt.mk (Some 10) None None None) 2
                  (fun _ => 2)) in
  option_map id (fst (getNextJob q 3)) = Some "b"
  /\ map id (getJobs q None 50) = ["b"; "a"].
Proof. split; reflexivity. Qed.

(** [add] on a queue that is not running starts it, and the first worker is
    given the job at once: the job that [add] returns is active, and
    [remove] refuses it. *)
Example add_starts_the_queue :
  let r := add (newJobQueue Cfg.no_input) "a" "resize" JsNull Opt.empty 1
             (fun _ => 1) in
  status (fst r) = active
  /\ startedAt (fst r) = Some 1
  /\ isRunning (snd r) = true
  /\ getJob (snd r) "a" = Some (fst r)
  /\ currentJobs (snd r) = ["a"]
  /\ fst (remove (snd r) "a" 2) = false.
Proof. repeat split; reflexivity. Qed.

(** A job that is not yet due is not claimed, and is reported as delayed. *)
Example delayed_job_waits :
  let q := snd (add (newJobQueue Cfg.no_input) "a" "resize" JsNull
                  (Opt.mk None (Some 500) None None) 1 (fun _ => 1)) in
  option_map status (getJob q "a") = Some waiting
  /\ fst (getNextJob q 100) = None
  /\ delayedJobs (view (fst (getStats q 100))) = 1
  /\ delayedJobs (view (fst (getStats q 501))) = 0
  /\ delayedJobs (stats q) = 1
  /\ option_map id (fst (getNextJob q 501)) = Some "a".
Proof. repeat split; reflexivity. Qed.

(** An explicit [maxRetries] of 0 is falsy and gives way to the queue's
    default of 3. *)
Example zero_maxRetries_falls_back :
  maxRetries (fst (add (newJobQueue Cfg.no_input) "a" "slow" JsNull
                     (Opt.mk None None (Some 0%nat) None) 1 (fun _ => 1))) = 3%nat.
Proof. reflexivity. Qed.

(** A processor that fails twice and then succeeds ends completed after two
    retries. *)
Example flaky_then_done :
  let ops :=
    (0, OpProcess "flaky") :: repeat (0, OpGetNextJob) 4
    ++ [ (1, OpAdd "f" "flaky" JsNull Opt.empty);
         (1000, OpGetNextJob);
         (1002, OpExecuteJob "f" (Rejected (Some "first")));
         (7000, OpGetNextJob);
         (7001, OpExecuteJob "f" TimedOut);
         (18000, OpGetNextJob);
         (18001, OpExecuteJob "f" (Resolved (JsStr "ok"))) ] in
  let q := run (newJobQueue Cfg.no_input) ops in
  option_map status (getJob q "f") = Some completed
  /\ option_map attempts (getJob q "f") = Some 2%nat
  /\ option_map processAt (getJob q "f") = Some 17001
  /\ option_map result (getJob q "f") = Some (JsStr "ok")
  /\ option_map error (getJob q "f") = Some (Some "Job timeout after 300000ms")
  /\ currentJobs q = []
  /\ invocations "f" (newJobQueue Cfg.no_input) ops = 3%nat.
Proof. repeat split; reflexivity. Qed.

(** A processor that throws a string leaves no message on the job; one that
    rejects with [undefined] leaves the job active for good. *)
Example rejections_without_message :
  let q := run (newJobQueue Cfg.no_input) claimed_run in
  let q1 := step q 2010 (OpExecuteJob "j1" (Rejected None)) in
  let q2 := step q 2010 (OpExecuteJob "j1" RejectedNullish) in
  option_map status (getJob q1 "j1") = Some waiting
  /\ option_map attempts (getJob q1 "j1") = Some 1%nat
  /\ option_map error (getJob q1 "j1") = Some None
  /\ option_map status (getJob q2 "j1") = Some active
  /\ currentJobs q2 = []
  /\ activeJobs (stats q2) = 1
  /\ fst (getNextJob q2 999999) = None
  /\ fst (remove q2 "j1" 999999) = false
  /\ fst (clean q2 0 999999) = 0%nat.
Proof. repeat split; reflexivity. Qed.

(** * Further properties *)

(** ** The state machine of a job *)

(** X1: one step of the queue moves a stored job only along
    waiting -> active (by [getNextJob], when it is due),
    active -> completed, active -> waiting with one more attempt, or
    active -> failed (by [executeJob] on that job); any other step leaves
    status, attempts and [processAt] as they are. A job disappears only by
    [remove] while it is not active, or by [clean] while it is completed or
    failed and old enough. The fields set by [add] never change. *)
Theorem step_transition (q : JobQueue) (now : Z) (op : Op) (key : string) (j : Job)
    (Hkeys : keys_unique (jobs q))
    (Hget : map_get key (jobs q) = Some j)
    (Hnew : adds key op = false) :
  match map_get key (jobs (step q now op)) with
  | None =>
      (op = OpRemove key /\ status j <> active)
      \/ (exists olderThan,
            op = OpClean olderThan
            /\ (status j = completed \/ status j = failed)
            /\ updatedAt j < now - olderThan)
  | Some j' =>
      same_identity j j'
      /\ ((status j' = status j /\ attempts j' = attempts j
           /\ processAt j' = processAt j)
          \/ (op = OpGetNextJob /\ status j = waiting /\ processAt j <= now
              /\ status j' = active /\ attempts j' = attempts j
              /\ startedAt j' = Some now)
          \/ (exists o,
                op = OpExecuteJob key o /\ status j = active
                /\ ((status j' = completed /\ attempts j' = attempts j)
                    \/ (status j' = waiting /\ attempts j' = S (attempts j)
                        /\ (attempts j < maxRetries j)%nat)
                    \/ (status j' = failed /\ attempts j' = attempts j))))
  end.
Proof.
  pose proof (step_change q now op key Hkeys) as Hc. rewrite Hget in Hc.
  remember (map_get key (jobs (step q now op))) as after eqn:Hafter.
  clear Hafter.
  inversion Hc as [old|j0 Hop Hs|j0 d Hop Hs|j0 message Hop|j0 percent Hop
                   |j0 Hop Hr|j0 o Hop Ha|old jobType payload options Hop];
    subst.
  - unfold same_identity. intuition.
  - left. auto.
  - right. exists d. apply is_old_terminal_spec in Hs. tauto.
  - unfold same_identity. simpl. intuition.
  - unfold same_identity. simpl. intuition.
  - apply ready_spec in Hr as [Hw Hp]. unfold same_identity. simpl.
    split; [intuition|]. right. left. intuition.
  - split.
    + unfold same_identity, settle.
      destruct (negb (map_has (type j) (processors q))); simpl; [intuition|].
      destruct o; simpl; try destruct (attempts j <? maxRetries j)%nat; simpl;
        intuition.
    + assert (Hmoved : forall j',
                (status j' = completed /\ attempts j' = attempts j)
                \/ (status j' = waiting /\ attempts j' = S (attempts j)
                    /\ (attempts j < maxRetries j)%nat)
                \/ (status j' = failed /\ attempts j' = attempts j) ->
                (status j' = status j /\ attempts j' = attempts j
                 /\ processAt j' = processAt j)
                \/ (OpExecuteJob key o = OpGetNextJob /\ status j = waiting
                    /\ processAt j <= now
                    /\ status j' = active /\ attempts j' = attempts j
                    /\ startedAt j' = Some now)
                \/ (exists o0,
                      OpExecuteJob key o = OpExecuteJob key o0 /\ status j = active
                      /\ ((status j' = completed /\ attempts j' = attempts j)
                          \/ (status j' = waiting /\ attempts j' = S (attempts j)
                              /\ (attempts j < maxRetries j)%nat)
                          \/ (status j' = failed /\ attempts j' = attempts j)))).
      { intros j' H. right. right. exists o. auto. }
      unfold settle.
      destruct (negb (map_has (type j) (processors q)));
        [apply Hmoved; simpl; auto|].
      destruct o.
      * apply Hmoved. simpl. auto.
      * destruct (attempts j <? maxRetries j)%nat eqn:El;
          [apply Nat.ltb_lt in El|]; apply Hmoved; simpl; auto.
      * left. auto.
      * destruct (attempts j <? maxRetries j)%nat eqn:El;
          [apply Nat.ltb_lt in El|]; apply Hmoved; simpl; auto.
  - simpl in Hnew. now rewrite String.eqb_refl in Hnew.
Qed.

Lemma evolves_refl (j : Job) : evolves j j.
Proof.
  unfold evolves, same_identity. repeat split; auto.
  exists []. now rewrite app_nil_r.
Qed.

Lemma evolves_trans (a b c : Job) : evolves a b -> evolves b c -> evolves a c.
Proof.
  unfold evolves, same_identity.
  intros (Ha & Hn & [m1 Hl] & Ht) (Hb & Hn' & [m2 Hl'] & Ht').
  split; [|split; [|split]].
  - intuition congruence.
  - lia.
  - exists (m1 ++ m2). now rewrite Hl', Hl, app_assoc.
  - intros Hs. specialize (Ht Hs).
    assert (Hs' : status b = completed \/ status b = failed).
    { destruct Ht as [-> _]. exact Hs. }
    specialize (Ht' Hs'). intuition congruence.
Qed.

Lemma step_evolves (q : JobQueue) (now : Z) (op : Op) (key : string) (j j' : Job) :
  keys_unique (jobs q) -> adds key op = false ->
  map_get key (jobs q) = Some j ->
  map_get key (jobs (step q now op)) = Some j' ->
  evolves j j'.
Proof.
  intros Hk Hnew Hget Hafter.
  pose proof (step_change q now op key Hk) as Hc. rewrite Hget, Hafter in Hc.
  inversion Hc as [old| | |j0 message Hop|j0 percent Hop
                   |j0 Hop Hr|j0 o Hop Ha|old jobType payload options Hop];
    subst.
  - apply evolves_refl.
  - unfold evolves, same_identity. simpl. repeat split; auto. eauto.
  - unfold evolves, same_identity. simpl. repeat split; auto.
    exists []. now rewrite app_nil_r.
  - apply ready_spec in Hr as [Hw _].
    unfold evolves, same_identity. simpl. repeat split; auto;
      try (exists []; now rewrite app_nil_r);
      destruct H as [H|H]; congruence.
  - assert (Hnt : ~ (status j = completed \/ status j = failed))
      by (intros [H|H]; congruence).
    unfold evolves, same_identity, settle.
    destruct (negb (map_has (type j) (processors q))); simpl.
    + repeat split; auto; try (exists []; now rewrite app_nil_r); tauto.
    + destruct o; simpl; try destruct (attempts j <? maxRetries j)%nat; simpl;
        repeat split; auto; try (exists []; now rewrite app_nil_r); tauto.
  - simpl in Hnew. now rewrite String.eqb_refl in Hnew.
Qed.

(** X2: along any run that does not draw the job's identifier again, a job
    that is still stored has kept the fields [add] gave it ([id], [type],
    [data], [priority], [delay], [maxRetries], [timeout], [createdAt]), its
    [attempts] have not decreased, its [logs] have only grown at the end,
    and if it was completed or failed its status, attempts, result, error
    and times are what they were. *)
Theorem run_evolution (q : JobQueue) (ops : list (Z * Op)) (key : string)
    (j j' : Job)
    (Hkeys : keys_unique (jobs q))
    (Hget : map_get key (jobs q) = Some j)
    (Hfresh : ~ In key (issued ops))
    (Hend : map_get key (jobs (run q ops)) = Some j') :
  (id j' = id j /\ type j' = type j /\ data j' = data j
   /\ priority j' = priority j /\ delay j' = delay j
   /\ maxRetries j' = maxRetries j /\ timeout j' = timeout j
   /\ createdAt j' = createdAt j)
  /\ (attempts j <= attempts j')%nat
  /\ (exists more, logs j' = logs j ++ more)
  /\ (status j = completed \/ status j = failed ->
      status j' = status j /\ attempts j' = attempts j
      /\ result j' = result j /\ error j' = error j
      /\ processAt j' = processAt j /\ startedAt j' = startedAt j
      /\ completedAt j' = completedAt j /\ failedAt j' = failedAt j
      /\ processingTime j' = processingTime j).
Proof.
  change (evolves j j').
  revert q j Hkeys Hget Hfresh Hend.
  induction ops as [|[now op] ops IH]; intros q j Hkeys Hget Hfresh Hend.
  - simpl in Hend. rewrite Hget in Hend. injection Hend as <-. apply evolves_refl.
  - simpl in Hend.
    assert (Hnew : adds key op = false).
    { destruct (adds key op) eqn:E; auto.
      exfalso. apply Hfresh, issued_cons. now left. }
    assert (Hrest : ~ In key (issued ops)).
    { intros Hin. apply Hfresh, issued_cons. now right. }
    pose proof (step_keys_unique q now op Hkeys) as Hkeys'.
    destruct (map_get key (jobs (step q now op))) as [j1|] eqn:E1.
    + apply evolves_trans with j1.
      * exact (@step_evolves q now op key j j1 Hkeys Hnew Hget E1).
      * exact (IH (step q now op) j1 Hkeys' E1 Hrest Hend).
    + rewrite (absent_stays_absent key ops (step q now op) Hkeys' E1 Hrest) in Hend.
      discriminate Hend.
Qed.

(** ** The shape of a job record *)

Lemma settle_consistent (q : JobQueue) (key : string) (j : Job) (o : Outcome)
    (now : Z) :
  status j = active -> consistent key j -> consistent key (settle q j o now).
Proof.
  intros Ha Hcons. pose proof Hcons as (Hid & Herr & Hshape).
  rewrite Ha in Hshape. destruct Hshape as [Hres Hstart].
  destruct (startedAt j) as [s|] eqn:Es; [|congruence].
  assert (Hnf : status j <> failed) by congruence.
  specialize (Herr Hnf).
  assert (Hfail : forall message,
            consistent key (failJob_job j message now)).
  { intros message. unfold consistent. simpl. rewrite Es. simpl.
    split; [exact Hid|]. split; [intros H; now destruct H|].
    split; [exact Hres|]. exists s, now. auto. }
  assert (Hretry : forall message,
            consistent key
              (retryJob_job (Cfg.retryDelay (config q)) j message now)).
  { intros message. unfold consistent. simpl. rewrite Es.
    split; [exact Hid|]. split; [intros _ H; discriminate H|].
    split; [exact Hres|]. intros _. discriminate. }
  unfold settle.
  destruct (negb (map_has (type j) (processors q))); [apply Hfail|].
  destruct o.
  - unfold consistent. simpl. rewrite Es. simpl.
    split; [exact Hid|]. split; [intros _; exact Herr|].
    exists s, now. auto.
  - destruct (attempts j <? maxRetries j)%nat; [apply Hretry|apply Hfail].
  - exact Hcons.
  - destruct (attempts j <? maxRetries j)%nat; [apply Hretry|apply Hfail].
Qed.

Lemma step_consistent (q : JobQueue) (now : Z) (op : Op) :
  keys_unique (jobs q) ->
  (forall k j, map_get k (jobs q) = Some j -> consistent k j) ->
  forall k j, map_get k (jobs (step q now op)) = Some j -> consistent k j.
Proof.
  intros Hk Hall k j' Hafter.
  pose proof (step_change q now op k Hk) as Hc. rewrite Hafter in Hc.
  assert (Hadd : forall jobType payload options,
            consistent k (fst (enqueue q k jobType payload options now))).
  { intros jobType payload options. unfold consistent. simpl.
    split; [reflexivity|]. split; [reflexivity|].
    split; [reflexivity|intros H; inversion H]. }
  destruct (map_get k (jobs q)) as [j|] eqn:Hb.
  - specialize (Hall k j Hb).
    inversion Hc as [old| | |j0 message Hop|j0 percent Hop
                     |j0 Hop Hr|j0 o Hop Ha|old jobType payload options Hop];
      subst.
    + exact Hall.
    + exact Hall.
    + exact Hall.
    + apply ready_spec in Hr as [Hw _].
      unfold consistent in *. rewrite Hw in Hall. simpl.
      destruct Hall as (Hid & Herr & Hres & _).
      split; [exact Hid|]. split; [intros _; apply Herr; discriminate|].
      split; [exact Hres|discriminate].
    + now apply settle_consistent.
    + apply Hadd.
  - inversion Hc; subst. apply Hadd.
Qed.

Lemma run_consistent (ops : list (Z * Op)) (q : JobQueue) :
  keys_unique (jobs q) ->
  (forall k j, map_get k (jobs q) = Some j -> consistent k j) ->
  forall k j, map_get k (jobs (run q ops)) = Some j -> consistent k j.
Proof.
  revert q. induction ops as [|[now op] ops IH]; intros q Hk Hall; simpl; auto.
  apply IH.
  - now apply step_keys_unique.
  - now apply step_consistent.
Qed.

Lemma reachable_consistent (c : Cfg.input) (ops : list (Z * Op)) :
  keys_unique (jobs (run (newJobQueue c) ops))
  /\ forall k j, map_get k (jobs (run (newJobQueue c) ops)) = Some j ->
       consistent k j.
Proof.
  destruct (newJobQueue_invariant c) as [Hk0 Hs0]. split.
  - now apply run_invariant.
  - apply run_consistent; auto. intros k j H. discriminate H.
Qed.

(** X3: in every run from a new queue, a stored job is stored under its own
    [id]; a job that is not completed has the result [null] that [add] gave
    it; a completed job has [startedAt], [completedAt] and
    [processingTime = completedAt - startedAt]; a failed job has
    [startedAt], [failedAt] and [processingTime = failedAt - startedAt]; an
    active job has [startedAt]; and a job that has neither failed nor been
    retried has no error. *)
Theorem records_consistent (c : Cfg.input) (ops : list (Z * Op)) (key : string)
    (j : Job)
    (Hget : map_get key (jobs (run (newJobQueue c) ops)) = Some j) :
  id j = key
  /\ (status j <> completed -> result j = JsNull)
  /\ (status j = completed ->
      exists s t, startedAt j = Some s /\ completedAt j = Some t
                  /\ processingTime j = Some (t - s))
  /\ (status j = failed ->
      exists s t,
        startedAt j = Some s /\ failedAt j = Some t
        /\ processingTime j = Some (t - s))
  /\ (status j = active -> exists s, startedAt j = Some s)
  /\ (status j <> failed -> attempts j = 0%nat -> error j = None).
Proof.
  destruct (reachable_consistent c ops) as [_ Hall].
  specialize (Hall key j Hget). unfold consistent in Hall.
  destruct Hall as (Hid & Herr & Hshape).
  split; [exact Hid|].
  destruct (status j) eqn:Es.
  - destruct Hshape as (Hres & _).
    split; [auto|].
    split; [discriminate|]. split; [discriminate|]. split; [discriminate|auto].
  - destruct Hshape as (Hres & Hstart).
    split; [auto|].
    split; [discriminate|]. split; [discriminate|].
    split; [intros _; destruct (startedAt j) as [s|]; [eauto|congruence]|auto].
  - destruct Hshape as (s & t & Hs & Ht & Hp).
    split; [congruence|].
    split; [intros _; exists s, t; auto|].
    split; [discriminate|]. split; [discriminate|auto].
  - destruct Hshape as (Hres & s & t & Hs & Ht & Hp).
    split; [auto|].
    split; [discriminate|].
    split; [intros _; exists s, t; auto|]. split; [discriminate|auto].
Qed.

(** ** Claims are exclusive *)

Lemma scan_max (now : Z) (m : JsMap Job) (key : string) (job : Job) :
  scan now m = Some (key, job) ->
  forall e, In e m -> ready now (snd e) = true -> priority (snd e) <= priority job.
Proof.
  intros H e He Hr. pose proof (scan_scanned now m) as Hs.
  unfold scan in H. unfold scanned in Hs. rewrite H in Hs. simpl in Hs.
  destruct Hs as (_ & _ & l1 & l2 & -> & H1 & H2).
  apply in_app_or in He as [He|[<-|He]]; simpl.
  - specialize (H1 e He Hr). lia.
  - lia.
  - exact (H2 e He Hr).
Qed.

(** X4: in every run from a new queue, the job that [getNextJob] returns
    was stored under its [id] as a waiting job that was due; after the call
    it is stored as returned, active with [startedAt = now], and no other
    entry has changed. The next call, whenever it comes, returns a
    different job; if that job was already due at the first call, its
    priority is not higher than the first job's. *)
Theorem claim_exclusive (c : Cfg.input) (ops : list (Z * Op)) (now : Z)
    (job : Job)
    (Hclaim : fst (getNextJob (run (newJobQueue c) ops) now) = Some job) :
  (exists before,
     getJob (run (newJobQueue c) ops) (id job) = Some before
     /\ status before = waiting /\ processAt before <= now
     /\ job = claim before now)
  /\ getJob (snd (getNextJob (run (newJobQueue c) ops) now)) (id job) = Some job
  /\ status job = active /\ startedAt job = Some now
  /\ (forall k, k <> id job ->
        getJob (snd (getNextJob (run (newJobQueue c) ops) now)) k
        = getJob (run (newJobQueue c) ops) k)
  /\ forall (now' : Z) (job' : Job),
       fst (getNextJob (snd (getNextJob (run (newJobQueue c) ops) now)) now')
       = Some job' ->
       id job' <> id job
       /\ exists before',
            getJob (run (newJobQueue c) ops) (id job') = Some before'
            /\ job' = claim before' now'
            /\ (processAt before' <= now -> priority job' <= priority job).
Proof.
  destruct (reachable_consistent c ops) as [Hk Hall].
  set (q := run (newJobQueue c) ops) in *.
  unfold getJob. unfold getNextJob in *.
  destruct (scan now (jobs q)) as [[key before]|] eqn:Es; [|discriminate].
  simpl in *. injection Hclaim as <-. simpl.
  destruct (scan_found now (jobs q) Es) as [Hin Hr].
  pose proof (In_map_get (jobs q) key before Hk Hin) as Hget.
  destruct (Hall key before Hget) as [Hid _].
  apply ready_spec in Hr as Hr'. destruct Hr' as [Hw Hp].
  rewrite Hid.
  split; [exists before; auto|].
  split; [apply map_get_set_same|].
  split; [reflexivity|]. split; [reflexivity|].
  split; [intros k Hne; now apply map_get_set_other|].
  intros now' job' Hsecond.
  set (m' := map_set key (claim before now) (jobs q)) in *.
  destruct (scan now' m') as [[k2 b2]|] eqn:Es2; [|discriminate].
  simpl in Hsecond. injection Hsecond as <-. simpl.
  destruct (scan_found now' m' Es2) as [Hin2 Hr2].
  assert (Hk' : keys_unique m') by now apply keys_unique_set.
  pose proof (In_map_get m' k2 b2 Hk' Hin2) as Hget2.
  apply ready_spec in Hr2 as [Hw2 Hp2].
  assert (Hne : k2 <> key).
  { intros ->. unfold m' in Hget2. rewrite map_get_set_same in Hget2.
    injection Hget2 as <-. simpl in Hw2. discriminate. }
  unfold m' in Hget2. rewrite map_get_set_other in Hget2 by exact Hne.
  destruct (Hall k2 b2 Hget2) as [Hid2 _]. rewrite Hid2.
  split; [exact Hne|].
  exists b2. repeat split; auto.
  intros Hdue.
  apply (scan_max now (jobs q) Es (k2, b2)).
  - now apply map_get_In.
  - apply ready_spec. auto.
Qed.

(** ** The counters *)

Lemma count_cons (f : Job -> bool) (x : Job) (l : list Job) :
  count f (x :: l) = Z.b2z (f x) + count f l.
Proof.
  unfold count. cbn [filter].
  destruct (f x); cbn [List.length Z.b2z]; lia.
Qed.

Lemma count_app (f : Job -> bool) (a b : list Job) :
  count f (a ++ b) = count f a + count f b.
Proof.
  unfold count. rewrite filter_app, length_app. lia.
Qed.

Lemma count_set_present (f : Job -> bool) (m : JsMap Job) (k : string)
    (j0 j : Job) :
  map_get k m = Some j0 ->
  count f (map_values (map_set k j m))
  = count f (map_values m) - Z.b2z (f j0) + Z.b2z (f j).
Proof.
  intros H. destruct (map_set_present m k j H) as (l1 & l2 & -> & ->).
  unfold map_values. rewrite !map_app. simpl.
  rewrite !count_app, !count_cons. lia.
Qed.

Lemma count_set_absent (f : Job -> bool) (m : JsMap Job) (k : string) (j : Job) :
  map_get k m = None ->
  count f (map_values (map_set k j m)) = count f (map_values m) + Z.b2z (f j).
Proof.
  intros H. rewrite (map_set_absent m k j H).
  unfold map_values. rewrite map_app. simpl.
  rewrite count_app, count_cons.
  replace (count f []) with 0 by reflexivity. lia.
Qed.

Lemma count_nonneg (f : Job -> bool) (l : list Job) : 0 <= count f l.
Proof. unfold count. lia. Qed.

Lemma count_statuses (l : list Job) :
  count (has_status waiting) l + count (has_status active) l
  + count (has_status completed) l + count (has_status failed) l
  = Z.of_nat (List.length l).
Proof.
  induction l as [|x l IH].
  - reflexivity.
  - rewrite !count_cons. simpl List.length. rewrite Nat2Z.inj_succ.
    unfold has_status at 1 3 5 7.
    destruct (status x); cbn [Status_eqb Z.b2z]; lia.
Qed.

Lemma updateStats_agrees (q : JobQueue) (now : Z) : agrees (updateStats q now).
Proof. unfold agrees. simpl. auto. Qed.

Ltac recount Hget Hstatus :=
  unfold agrees in *; simpl;
  rewrite !(count_set_present _ _ _ _ Hget);
  unfold has_status in *; rewrite ?Hstatus; simpl; lia.

Lemma executeJob_agrees (q : JobQueue) (key : string) (j : Job) (o : Outcome)
    (now : Z) :
  map_get key (jobs q) = Some j -> status j = active ->
  agrees q -> agrees (executeJob q key o now).
Proof.
  intros Hget Ha Hag. unfold executeJob. rewrite Hget.
  destruct (negb (map_has (type j) (processors q))).
  - recount Hget Ha.
  - destruct o; try destruct (attempts j <? maxRetries j)%nat;
      first [exact Hag | recount Hget Ha].
Qed.

Lemma filter_keeps_all (A : Type) (f : A -> bool) (l : list A) :
  List.length (filter f l) = 0%nat -> filter (fun x => negb (f x)) l = l.
Proof.
  induction l as [|x l IH]; simpl; auto.
  destruct (f x); simpl; [discriminate|].
  intros H. now rewrite IH.
Qed.

Lemma clean_unfolded (q : JobQueue) (olderThan now : Z) :
  keys_unique (jobs q) ->
  clean q olderThan now
  = (List.length
       (filter (fun e => is_old_terminal (now - olderThan) (snd e)) (jobs q)),
     if (0 <? List.length
                (filter (fun e => is_old_terminal (now - olderThan) (snd e))
                   (jobs q)))%nat
     then updateStats
            (set_jobs q
               (filter (fun e => negb (is_old_terminal (now - olderThan) (snd e)))
                  (jobs q))) now
     else set_jobs q
            (filter (fun e => negb (is_old_terminal (now - olderThan) (snd e)))
               (jobs q))).
Proof.
  intros Hnd. unfold clean. cbv zeta.
  pose proof (@clean_loop (now - olderThan) (jobs q) [] 0%nat Hnd) as H.
  simpl in H. now rewrite H.
Qed.

Lemma step_agrees (q : JobQueue) (now : Z) (op : Op) :
  keys_unique (jobs q) -> agrees q ->
  (forall k, adds k op = true -> map_get k (jobs q) = None) ->
  agrees (step q now op).
Proof.
  intros Hk Hag Hfresh. destruct op as [newId jobType payload options|jobType| |
                             |k o|k message|k percent|jobId|olderThan| |jobId];
    simpl.
  - assert (Hnone : map_get newId (jobs q) = None).
    { apply Hfresh. simpl. apply String.eqb_refl. }
    unfold agrees in *. simpl. rewrite !(count_set_absent _ _ _ _ Hnone).
    unfold has_status in *. simpl. lia.
  - exact Hag.
  - exact Hag.
  - unfold processLoop_getNextJob, getNextJob.
    destruct (scan now (jobs q)) as [[k job]|] eqn:Es; simpl;
      [|exact Hag].
    apply scan_found in Es as [Hin Hr].
    apply In_map_get in Hin; [|exact Hk].
    apply ready_spec in Hr as [Hw _].
    recount Hin Hw.
  - destruct (held q k) eqn:Eh; [|exact Hag].
    apply held_active in Eh as (_ & job & Ej & Ea).
    apply (@executeJob_agrees q k job o now Ej Ea) in Hag.
    exact Hag.
  - unfold logJob, write_job.
    destruct (map_get k (jobs q)) as [job|] eqn:Ej; [|exact Hag].
    unfold agrees in *. simpl. rewrite !(count_set_present _ _ _ _ Ej).
    unfold has_status in *. simpl. lia.
  - unfold updateJobProgress, write_job.
    destruct (map_get k (jobs q)) as [job|] eqn:Ej; [|exact Hag].
    unfold agrees in *. simpl. rewrite !(count_set_present _ _ _ _ Ej).
    unfold has_status in *. simpl. lia.
  - unfold remove. destruct (map_get jobId (jobs q)) as [job|]; [|exact Hag].
    destruct (has_status active job); simpl; [exact Hag|].
    apply updateStats_agrees.
  - rewrite (clean_unfolded q olderThan now Hk). simpl.
    destruct (List.length _) as [|n] eqn:El; simpl.
    + rewrite (filter_keeps_all _ _ El). exact Hag.
    + apply updateStats_agrees.
  - apply updateStats_agrees.
  - unfold delayTimer. destruct (map_get jobId (jobs q)) as [job|]; [|exact Hag].
    destruct (has_status waiting job); exact Hag.
Qed.

Lemma step_totalJobs (q : JobQueue) (now : Z) (op : Op) :
  keys_unique (jobs q) ->
  totalJobs (stats (step q now op))
  = totalJobs (stats q)
    + match op with OpAdd _ _ _ _ => 1 | _ => 0 end.
Proof.
  intros Hk. destruct op as [newId jobType payload options|jobType| |
                             |k o|k message|k percent|jobId|olderThan| |jobId];
    simpl; try lia.
  - unfold processLoop_getNextJob, getNextJob.
    destruct (scan now (jobs q)) as [[k job]|]; simpl; lia.
  - destruct (held q k); [|lia]. unfold processLoop_executeJob, executeJob. simpl.
    destruct (map_get k (jobs q)) as [job|]; [|lia].
    destruct (negb (map_has (type job) (processors q))); simpl; [lia|].
    destruct o; try destruct (attempts job <? maxRetries job)%nat; simpl; lia.
  - unfold logJob, write_job. destruct (map_get k (jobs q)); simpl; lia.
  - unfold updateJobProgress, write_job. destruct (map_get k (jobs q)); simpl; lia.
  - unfold remove. destruct (map_get jobId (jobs q)) as [job|]; [|simpl; lia].
    destruct (has_status active job); simpl; lia.
  - rewrite (clean_unfolded q olderThan now Hk). simpl.
    destruct (0 <? _)%nat; simpl; lia.
  - unfold delayTimer. destruct (map_get jobId (jobs q)) as [job|]; [|lia].
    destruct (has_status waiting job); simpl; lia.
Qed.

Lemma step_keys_in (q : JobQueue) (now : Z) (op : Op) (k : string) :
  keys_unique (jobs q) ->
  In k (map_keys (jobs (step q now op))) ->
  In k (map_keys (jobs q)) \/ adds k op = true.
Proof.
  intros Hk Hin. apply map_keys_get in Hin as [j' Hafter].
  pose proof (step_change q now op k Hk) as Hc. rewrite Hafter in Hc.
  destruct (map_get k (jobs q)) as [j|] eqn:Hb.
  - left. apply map_keys_get. eauto.
  - right. inversion Hc; subst. simpl. apply String.eqb_refl.
Qed.

Lemma agrees_run (ops : list (Z * Op)) (q : JobQueue) :
  keys_unique (jobs q) -> agrees q -> NoDup (issued ops) ->
  (forall k, In k (map_keys (jobs q)) -> ~ In k (issued ops)) ->
  agrees (run q ops)
  /\ totalJobs (stats (run q ops))
     = totalJobs (stats q) + Z.of_nat (List.length (issued ops)).
Proof.
  revert q. induction ops as [|[now op] ops IH]; intros q Hk Hag Hnd Hold.
  - simpl. split; [exact Hag|lia].
  - destruct (issued_tail now op ops Hnd) as [Hnd' Hnew].
    assert (Hfresh : forall k, adds k op = true -> map_get k (jobs q) = None).
    { intros k Ha. destruct (map_get k (jobs q)) as [j|] eqn:E; auto.
      exfalso. apply (Hold k).
      - apply map_keys_get. eauto.
      - apply issued_cons. now left. }
    destruct (IH (step q now op)) as [Hag' Htotal]; auto.
    + now apply step_keys_unique.
    + now apply step_agrees.
    + intros k Hin Hiss. destruct (step_keys_in q now op k Hk Hin) as [H|H].
      * apply (Hold k H). apply issued_cons. now right.
      * now apply (Hnew k H).
    + split; [exact Hag'|]. simpl run. rewrite Htotal, step_totalJobs by exact Hk.
      destruct op; simpl issued; try lia.
      simpl List.length. lia.
Qed.

(** X5: in every run from a new queue in which [generateJobId] never
    repeats an identifier, the counters kept step by step by [add],
    [getNextJob], [completeJob], [retryJob] and [failJob] are the numbers
    of stored jobs that are active, waiting, completed and failed (so
    [updateStats] would leave them as they are), they add up to the size of
    the store, and [totalJobs] is the number of jobs ever added. *)
Theorem counters_agree (c : Cfg.input) (ops : list (Z * Op))
    (Hfresh : NoDup (issued ops)) :
  let q := run (newJobQueue c) ops in
  let stored (s : Status) :=
    Z.of_nat (List.length
                (filter (fun j => Status_eqb (status j) s) (map_values (jobs q)))) in
  activeJobs (stats q) = stored active
  /\ waitingJobs (stats q) = stored waiting
  /\ completedJobs (stats q) = stored completed
  /\ failedJobs (stats q) = stored failed
  /\ activeJobs (stats q) + waitingJobs (stats q) + completedJobs (stats q)
     + failedJobs (stats q) = Z.of_nat (map_size (jobs q))
  /\ totalJobs (stats q) = Z.of_nat (List.length (issued ops)).
Proof.
  intros q stored.
  destruct (newJobQueue_invariant c) as [Hk0 _].
  assert (Hag0 : agrees (newJobQueue c)) by (unfold agrees; simpl; auto).
  destruct (@agrees_run ops (newJobQueue c) Hk0 Hag0 Hfresh) as [Hag Htotal].
  { intros k []. }
  fold q in Hag, Htotal. destruct Hag as (Ha & Hw & Hc & Hf).
  pose proof (count_statuses (map_values (jobs q))) as Hsum.
  unfold map_values in Hsum at 5. rewrite length_map in Hsum.
  repeat split; auto.
  - unfold map_size. lia.
Qed.

(** ** The statistics view *)

Lemma count_le (f g : Job -> bool) (l : list Job) :
  (forall x, f x = true -> g x = true) -> count f l <= count g l.
Proof.
  intros H. induction l as [|x l IH].
  - reflexivity.
  - rewrite !count_cons.
    destruct (f x) eqn:Ef; [rewrite (H x Ef)|destruct (g x)];
      cbn [Z.b2z]; lia.
Qed.

(** X6: the four status counts that [getStats] reports add up to
    [totalJobsInMemory], whatever the stored counters were; the delayed
    count is part of the waiting count; [totalJobs] is reported as stored,
    and [getStats] leaves the jobs as they are. *)
Theorem getStats_partition (q : JobQueue) (now : Z) :
  let v := fst (getStats q now) in
  waitingJobs (view v) + activeJobs (view v) + completedJobs (view v)
  + failedJobs (view v) = Z.of_nat (totalJobsInMemory v)
  /\ 0 <= delayedJobs (view v) <= waitingJobs (view v)
  /\ totalJobs (view v) = totalJobs (stats q)
  /\ jobs (snd (getStats q now)) = jobs q.
Proof.
  simpl. split; [|split; [|split]]; auto.
  - pose proof (count_statuses (map_values (jobs q))) as H.
    unfold map_values in H at 5. rewrite length_map in H.
    unfold map_size. lia.
  - split; [apply count_nonneg|].
    apply count_le. intros x Hx. unfold is_delayed in Hx.
    now apply andb_true_iff in Hx as [Hx _].
Qed.

Lemma sum_between (lo hi : Z) (l : list Z) (acc : Z) :
  (forall t, In t l -> lo <= t <= hi) ->
  acc + Z.of_nat (List.length l) * lo <= fold_left Z.add l acc
  <= acc + Z.of_nat (List.length l) * hi.
Proof.
  revert acc. induction l as [|x l IH]; intros acc H.
  - simpl. lia.
  - cbn [fold_left List.length].
    assert (Hx : lo <= x <= hi) by (apply H; now left).
    assert (Hl : forall t, In t l -> lo <= t <= hi) by (intros t Ht; apply H; now right).
    specialize (IH (acc + x) Hl). lia.
Qed.

Lemma round_div_between (lo hi total n : Z) :
  0 < n -> n * lo <= total <= n * hi -> lo <= round_div total n <= hi.
Proof.
  intros Hn [Hlo Hhi]. unfold round_div. split.
  - apply Z.div_le_lower_bound; lia.
  - assert (H : (2 * total + n) / (2 * n) < hi + 1); [|lia].
    apply Z.div_lt_upper_bound; lia.
Qed.

(** X7: the average processing time that [getStats] reports is taken over
    the completed jobs whose processing time is not 0: when there is none
    it is 0, and otherwise it lies between any bounds that hold for the
    processing times of those jobs. *)
Theorem avgProcessingTime_between (q : JobQueue) (now : Z) :
  let counted_in (j : Job) (t : Z) :=
    status j = completed /\ processingTime j = Some t /\ t <> 0 in
  ((forall j t, In j (map_values (jobs q)) -> ~ counted_in j t) ->
   avgProcessingTime (fst (getStats q now)) = 0)
  /\ forall lo hi : Z,
       (exists j t, In j (map_values (jobs q)) /\ counted_in j t) ->
       (forall j t, In j (map_values (jobs q)) -> counted_in j t -> lo <= t <= hi) ->
       lo <= avgProcessingTime (fst (getStats q now)) <= hi.
Proof.
  intros counted_in. simpl.
  set (pick := fun job : Job =>
                 has_status completed job && truthy_time (processingTime job)).
  set (time := fun job : Job =>
                 match processingTime job with Some t => t | None => 0 end).
  assert (Hpick : forall j, pick j = true <-> counted_in j (time j)).
  { intros j. unfold pick, counted_in, time, truthy_time.
    rewrite andb_true_iff, has_status_true.
    destruct (processingTime j) as [t|].
    - rewrite negb_true_iff, Z.eqb_neq. intuition.
    - intuition; congruence. }
  assert (Htime : forall j t, counted_in j t -> time j = t).
  { intros j t (_ & Hp & _). unfold time. now rewrite Hp. }
  split.
  - intros Hnone.
    assert (Hempty : filter pick (map_values (jobs q)) = []).
    { destruct (filter pick (map_values (jobs q))) as [|x l] eqn:E; auto.
      assert (Hx : In x (filter pick (map_values (jobs q)))) by (rewrite E; now left).
      apply filter_In in Hx as [Hin Hp]. apply Hpick in Hp.
      now destruct (Hnone x (time x) Hin). }
    rewrite Hempty. reflexivity.
  - intros lo hi (j & t & Hin & Hc) Hbounds.
    set (times := map time (filter pick (map_values (jobs q)))).
    assert (Hlen : 0 < Z.of_nat (List.length times)).
    { assert (Hj : In (time j) times).
      { apply in_map, filter_In. split; auto. apply Hpick.
        now rewrite (Htime j t Hc). }
      destruct times; [destruct Hj|simpl; lia]. }
    apply Z.ltb_lt in Hlen as Hlen'. rewrite Hlen'.
    apply round_div_between; auto.
    assert (Hall : forall x, In x times -> lo <= x <= hi).
    { intros x Hx. apply in_map_iff in Hx as (y & <- & Hy).
      apply filter_In in Hy as [Hy Hp]. apply Hpick in Hp. eauto. }
    pose proof (@sum_between lo hi times 0 Hall). lia.
Qed.

(** ** [add] and [process] as runs *)

Lemma raise_running (q : JobQueue) : isRunning q = true -> raise q = q.
Proof. destruct q. simpl. intros ->. reflexivity. Qed.

Lemma startWorkers_run (n i : nat) (q : JobQueue) (clock : nat -> Z) :
  isRunning q = true ->
  startWorkers n i q clock = run q (requests clock i n).
Proof.
  revert i q. induction n as [|n IH]; intros i q Hr; simpl; auto.
  unfold startWorker. rewrite Hr. apply IH.
  destruct (jobs_processLoop_getNextJob q (clock i)) as (_ & _ & _ & _ & ->).
  exact Hr.
Qed.

Lemma add_as_run (q : JobQueue) (newId jobType : string) (payload : JsValue)
    (options : Opt.t) (now : Z) (clock : nat -> Z) :
  snd (add q newId jobType payload options now clock)
  = run q ((now, OpAdd newId jobType payload options) :: first_requests q clock).
Proof.
  unfold add, first_requests. simpl.
  destruct (isRunning q) eqn:Er; simpl.
  - reflexivity.
  - unfold start. simpl. now apply startWorkers_run.
Qed.

Lemma process_as_run (q : JobQueue) (jobType : string) (now : Z)
    (clock : nat -> Z) :
  process q jobType clock
  = run q ((now, OpProcess jobType) :: first_requests q clock).
Proof.
  unfold process, first_requests. simpl.
  destruct (isRunning q) eqn:Er; simpl.
  - unfold raise, register. simpl. now rewrite Er.
  - unfold start. simpl. rewrite Er. now apply startWorkers_run.
Qed.

Lemma add_running (q : JobQueue) (newId jobType : string) (payload : JsValue)
    (options : Opt.t) (now : Z) (clock : nat -> Z) :
  isRunning q = true ->
  add q newId jobType payload options now clock
  = enqueue q newId jobType payload options now.
Proof.
  intros Hr. unfold add, enqueue. simpl. rewrite Hr. simpl.
  now rewrite map_get_set_same.
Qed.

Lemma run_keys_unique (ops : list (Z * Op)) (q : JobQueue) :
  keys_unique (jobs q) -> keys_unique (jobs (run q ops)).
Proof.
  revert q. induction ops as [|[now op] ops IH]; intros q Hk; simpl; auto.
  apply IH. now apply step_keys_unique.
Qed.

(** What the workers' requests leave of a stored job, of the counter of
    all jobs and of the running flag. *)
Lemma requests_keep (clock : nat -> Z) (n i : nat) (q : JobQueue) (key : string)
    (j : Job) :
  keys_unique (jobs q) -> map_get key (jobs q) = Some j ->
  totalJobs (stats (run q (requests clock i n))) = totalJobs (stats q)
  /\ exists j',
       map_get key (jobs (run q (requests clock i n))) = Some j'
       /\ same_identity j j'
       /\ (status j' = status j \/ (status j = waiting /\ status j' = active)).
Proof.
  unfold requests.
  revert i q j. induction n as [|n IH]; intros i q j Hk Hget; simpl.
  - split; auto. exists j. unfold same_identity. intuition.
  - pose proof (step_keys_unique q (clock i) OpGetNextJob Hk) as Hk'.
    pose proof (step_totalJobs q (clock i) OpGetNextJob Hk) as Ht. simpl in Ht.
    pose proof (step_change q (clock i) OpGetNextJob key Hk) as Hc.
    rewrite Hget in Hc. simpl in Hk'.
    assert (Hnext : exists j1,
              map_get key (jobs (processLoop_getNextJob q (clock i))) = Some j1
              /\ same_identity j j1
              /\ (status j1 = status j \/ (status j = waiting /\ status j1 = active))).
    { simpl in Hc.
      inversion Hc as [old Ho Hn| | |j0 message Hop|j0 percent Hop
                       |j0 Hop Hr Ho Hn|j0 o Hop|old jobType payload options Hop];
        try discriminate.
      - exists j. unfold same_identity. intuition.
      - apply ready_spec in Hr as [Hw _].
        exists (claim j (clock i)). unfold same_identity. simpl. intuition. }
    destruct Hnext as (j1 & Hget1 & Hid1 & Hst1).
    destruct (IH (S i) (processLoop_getNextJob q (clock i)) j1 Hk' Hget1)
      as (Ht' & j' & Hget' & Hid' & Hst').
    split; [rewrite Ht'; lia|].
    exists j'. split; [exact Hget'|]. split.
    + unfold same_identity in *. intuition congruence.
    + destruct Hst1 as [H1|[H1 H1']]; destruct Hst' as [H2|[H2 H2']];
        try (left; congruence); try (right; split; congruence).
Qed.

Lemma requests_isRunning (clock : nat -> Z) (n i : nat) (q : JobQueue) :
  isRunning (run q (requests clock i n)) = isRunning q.
Proof.
  unfold requests. revert i q. induction n as [|n IH]; intros i q; simpl; auto.
  rewrite IH.
  now destruct (jobs_processLoop_getNextJob q (clock i)) as (_ & _ & _ & _ & ->).
Qed.

Lemma add_fst (q : JobQueue) (newId jobType : string) (payload : JsValue)
    (options : Opt.t) (now : Z) (clock : nat -> Z) :
  fst (add q newId jobType payload options now clock)
  = match map_get newId
            (jobs (snd (add q newId jobType payload options now clock))) with
    | Some current => current
    | None => fst (enqueue q newId jobType payload options now)
    end.
Proof. reflexivity. Qed.

(** The job that [add] returns is the one it has stored; it has the fields
    that [add] gave it, and it is waiting or, on a queue that [add] has
    started, possibly active. *)
Lemma add_stored (q : JobQueue) (newId jobType : string) (payload : JsValue)
    (options : Opt.t) (now : Z) (clock : nat -> Z) :
  keys_unique (jobs q) ->
  map_get newId (jobs (snd (add q newId jobType payload options now clock)))
  = Some (fst (add q newId jobType payload options now clock))
  /\ same_identity (fst (enqueue q newId jobType payload options now))
       (fst (add q newId jobType payload options now clock))
  /\ (status (fst (add q newId jobType payload options now clock)) = waiting
      \/ status (fst (add q newId jobType payload options now clock)) = active)
  /\ totalJobs (stats (snd (add q newId jobType payload options now clock)))
     = totalJobs (stats q) + 1
  /\ keys_unique (jobs (snd (add q newId jobType payload options now clock)))
  /\ isRunning (snd (add q newId jobType payload options now clock)) = true.
Proof.
  intros Hkeys. rewrite add_fst, add_as_run.
  change (run q ((now, OpAdd newId jobType payload options)
                 :: first_requests q clock))
    with (run (step q now (OpAdd newId jobType payload options))
            (first_requests q clock)).
  pose proof (step_keys_unique q now (OpAdd newId jobType payload options) Hkeys)
    as Hk1.
  pose proof (step_totalJobs q now (OpAdd newId jobType payload options) Hkeys)
    as Ht1.
  assert (Hget1 : map_get newId
                    (jobs (step q now (OpAdd newId jobType payload options)))
                  = Some (fst (enqueue q newId jobType payload options now))).
  { simpl. apply map_get_set_same. }
  assert (Hr1 : isRunning (step q now (OpAdd newId jobType payload options)) = true)
    by reflexivity.
  set (q1 := step q now (OpAdd newId jobType payload options)) in *.
  unfold first_requests.
  destruct (@requests_keep clock
              (if isRunning q then 0%nat else Cfg.concurrency (config q)) 0%nat q1
              newId _ Hk1 Hget1) as (Ht & j' & Hget' & Hid & Hst).
  rewrite Hget'. split; [reflexivity|]. split; [exact Hid|]. split.
  - simpl in Hst. destruct Hst as [H|[_ H]]; auto.
  - split; [rewrite Ht, Ht1; reflexivity|].
    split; [now apply run_keys_unique|]. now rewrite requests_isRunning.
Qed.

(** ** Adding a job *)

(** C4 (as amended): [add] does not inspect [jobType]. With the empty string
    it is not rejected: it creates a job of type [""], stores it under the
    identifier drawn and returns it, and the total-jobs counter grows by
    one. *)
Theorem add_empty_type_accepted (q : JobQueue) (newId : string) (payload : JsValue)
    (options : Opt.t) (now : Z) (clock : nat -> Z)
    (Hkeys : keys_unique (jobs q)) :
  let job := fst (add q newId "" payload options now clock) in
  let q' := snd (add q newId "" payload options now clock) in
  type job = "" /\ id job = newId
  /\ map_get newId (jobs q') = Some job
  /\ totalJobs (stats q') = totalJobs (stats q) + 1.
Proof.
  intros job q'.
  destruct (@add_stored q newId "" payload options now clock Hkeys)
    as (Hget & Hid & _ & Ht & _).
  unfold same_identity in Hid. simpl in Hid. destruct Hid as (Hi & Hty & _).
  unfold job, q'. auto.
Qed.

Lemma add_empty_type_accepted_witness :
  type (fst (add (newJobQueue Cfg.no_input) "a1" "" JsNull Opt.empty 1000
               (fun _ => 1000))) = ""
  /\ totalJobs (stats (snd (add (newJobQueue Cfg.no_input) "a1" "" JsNull Opt.empty
                              1000 (fun _ => 1000)))) = 1.
Proof.
  assert (Hkeys : keys_unique (jobs (newJobQueue Cfg.no_input))) by constructor.
  destruct (@add_empty_type_accepted (newJobQueue Cfg.no_input) "a1" JsNull Opt.empty
              1000 (fun _ => 1000) Hkeys) as (Hty & _ & _ & Ht).
  split; [exact Hty | exact Ht].
Defined.

(** C4 (counterexample): on a new queue, [add] with the empty type returns
    a job of type [""], which the store then holds, and the total-jobs
    counter goes from 0 to 1. *)
Lemma add_empty_type_creates_job :
  type (fst (add (newJobQueue Cfg.no_input) "a1" "" JsNull Opt.empty 1000
               (fun _ => 1000))) = ""
  /\ getJob (snd (add (newJobQueue Cfg.no_input) "a1" "" JsNull Opt.empty 1000
                    (fun _ => 1000))) "a1"
     = Some (fst (add (newJobQueue Cfg.no_input) "a1" "" JsNull Opt.empty 1000
                    (fun _ => 1000)))
  /\ jobs (snd (add (newJobQueue Cfg.no_input) "a1" "" JsNull Opt.empty 1000
                  (fun _ => 1000)))
     <> jobs (newJobQueue Cfg.no_input)
  /\ totalJobs (stats (newJobQueue Cfg.no_input)) = 0
  /\ totalJobs (stats (snd (add (newJobQueue Cfg.no_input) "a1" "" JsNull Opt.empty
                              1000 (fun _ => 1000)))) = 1.
Proof.
  repeat split; try reflexivity. vm_compute. discriminate.
Qed.

(** ** Adding and removing *)

Lemma map_delete_set_absent (V : Type) (m : JsMap V) (k : string) (v : V) :
  map_get k m = None -> map_delete k (map_set k v m) = m.
Proof.
  intros H. rewrite (map_set_absent m k v H).
  unfold map_delete. rewrite filter_app. simpl. rewrite String.eqb_refl. simpl.
  rewrite app_nil_r. apply map_delete_absent. now apply map_get_None_keys.
Qed.

Lemma startWorkers_idle (n i : nat) (q : JobQueue) (clock : nat -> Z) :
  (forall t, scan t (jobs q) = None) -> startWorkers n i q clock = q.
Proof.
  intros Hs. revert i. induction n as [|n IH]; intros i; simpl; auto.
  unfold startWorker, processLoop_getNextJob, getNextJob. rewrite Hs. simpl.
  destruct (isRunning q); apply IH.
Qed.

(** On a queue that is not running and holds no job, [add] starts the
    workers, and the first of them is given the new job when it is due at
    that worker's clock reading. *)
Lemma add_claimed_at_once (q : JobQueue) (newId jobType : string) (payload : JsValue)
    (options : Opt.t) (now : Z) (clock : nat -> Z) :
  isRunning q = false -> jobs q = [] ->
  (0 < Cfg.concurrency (config q))%nat ->
  now + or_Z (Opt.delay options) 0 <= clock 0%nat ->
  jobs (snd (add q newId jobType payload options now clock))
  = [(newId,
      claim (fst (enqueue q newId jobType payload options now)) (clock 0%nat))].
Proof.
  intros Hstop Hempty Hworkers Hdue.
  assert (Hd : (now + or_Z (Opt.delay options) 0 <=? clock 0%nat) = true)
    by (apply Z.leb_le; lia).
  unfold add, enqueue, start. simpl. rewrite Hstop, Hempty. simpl.
  destruct (Cfg.concurrency (config q)) as [|n]; [lia|].
  cbn [startWorkers]. unfold startWorker at 1. cbn [isRunning raise].
  unfold processLoop_getNextJob at 1.
  unfold getNextJob, scan. simpl. unfold scan_body, ready. simpl.
  rewrite Hd. simpl. rewrite String.eqb_refl.
  rewrite startWorkers_idle; [reflexivity|].
  intros t. simpl. unfold scan. simpl. unfold scan_body, ready. reflexivity.
Qed.

(** X8: [add] is its own writes followed, on a queue that was not running,
    by the first requests of the workers it starts. It stores the job it
    returns under the identifier drawn, with the type and data given, and
    [totalJobs] grows by one. On a running queue the job is waiting and no
    other entry is touched; [remove] then deletes the job, without reducing
    [totalJobs]; when the identifier was not in use the store grows by one
    entry, placed last, and removing the job again gives back the store as
    it was before; when it was in use the new job takes the place of the old
    one and the store keeps its keys. On a queue that is not running, has at
    least one worker and holds no other job, a job that is due when the
    first worker asks is active when [add] returns, and [remove] refuses
    it. *)
Theorem add_then_remove (q : JobQueue) (newId jobType : string) (payload : JsValue)
    (options : Opt.t) (now later : Z) (clock : nat -> Z)
    (Hkeys : keys_unique (jobs q)) :
  let job := fst (add q newId jobType payload options now clock) in
  let q1 := snd (add q newId jobType payload options now clock) in
  q1 = run q ((now, OpAdd newId jobType payload options) :: first_requests q clock)
  /\ getJob q1 newId = Some job
  /\ id job = newId /\ type job = jobType /\ data job = payload
  /\ totalJobs (stats q1) = totalJobs (stats q) + 1
  /\ (isRunning q = true ->
      status job = waiting
      /\ (forall k, k <> newId -> getJob q1 k = getJob q k)
      /\ fst (remove q1 newId later) = true
      /\ getJob (snd (remove q1 newId later)) newId = None
      /\ totalJobs (stats (snd (remove q1 newId later))) = totalJobs (stats q) + 1
      /\ (getJob q newId = None ->
          jobs q1 = jobs q ++ [(newId, job)]
          /\ jobs (snd (remove q1 newId later)) = jobs q)
      /\ (forall old, getJob q newId = Some old ->
          map_keys (jobs q1) = map_keys (jobs q)
          /\ map_size (jobs q1) = map_size (jobs q)))
  /\ (isRunning q = false -> jobs q = [] ->
      (0 < Cfg.concurrency (config q))%nat ->
      processAt (fst (enqueue q newId jobType payload options now))
      <= clock 0%nat ->
      status job = active /\ startedAt job = Some (clock 0%nat)
      /\ remove q1 newId later = (false, q1)).
Proof.
  intros job q1.
  destruct (@add_stored q newId jobType payload options now clock Hkeys)
    as (Hget & Hid & _ & Ht & _).
  unfold same_identity in Hid. simpl in Hid.
  destruct Hid as (Hi & Hty & Hda & _).
  split; [apply add_as_run|].
  split; [exact Hget|].
  split; [exact Hi|]. split; [exact Hty|]. split; [exact Hda|].
  split; [exact Ht|]. split.
  - intros Hrun. unfold job, q1, getJob.
    rewrite (add_running q newId jobType payload options now clock Hrun). simpl.
    set (job0 := mkJob newId jobType payload _ _ _ _ waiting 0 now _ now JsNull None
                   0 [] None None None None).
    assert (Hget0 : map_get newId (map_set newId job0 (jobs q)) = Some job0)
      by apply map_get_set_same.
    unfold remove. simpl. rewrite Hget0. simpl.
    split; [reflexivity|].
    split; [intros k Hk; now apply map_get_set_other|].
    split; [reflexivity|].
    split; [apply map_get_delete_same|].
    split; [reflexivity|].
    split.
    + intros Hnone. split.
      * now apply map_set_absent.
      * now apply map_delete_set_absent.
    + intros old Hold. split.
      * eapply map_keys_set_present; eauto.
      * unfold map_size. rewrite <- !(length_map fst).
        change (map fst (map_set newId job0 (jobs q)))
          with (map_keys (map_set newId job0 (jobs q))).
        now rewrite (map_keys_set_present (jobs q) newId job0 Hold).
  - intros Hstop Hempty Hworkers Hdue.
    pose proof (@add_claimed_at_once q newId jobType payload options now clock
                  Hstop Hempty Hworkers Hdue) as Hq1.
    fold q1 in Hq1.
    assert (Hjob : job = claim (fst (enqueue q newId jobType payload options now))
                           (clock 0%nat)).
    { unfold job. rewrite add_fst. fold q1. rewrite Hq1. simpl.
      now rewrite String.eqb_refl. }
    rewrite Hjob. split; [reflexivity|]. split; [reflexivity|].
    unfold remove. rewrite Hq1. simpl. now rewrite String.eqb_refl.
Qed.

(** ** Sweeping twice *)

Lemma filter_filter (A : Type) (f g : A -> bool) (l : list A) :
  filter f (filter g l) = filter (fun x => g x && f x) l.
Proof.
  induction l as [|x l IH]; simpl; auto.
  destruct (g x); simpl; [destruct (f x)|]; now rewrite ?IH.
Qed.

Lemma is_old_terminal_min (now d1 d2 : Z) (j : Job) :
  is_old_terminal (now - Z.min d1 d2) j
  = is_old_terminal (now - d1) j || is_old_terminal (now - d2) j.
Proof.
  unfold is_old_terminal.
  destruct (has_status completed j || has_status failed j); simpl; auto.
  destruct (updatedAt j <? now - d1) eqn:E1;
    destruct (updatedAt j <? now - d2) eqn:E2;
    destruct (updatedAt j <? now - Z.min d1 d2) eqn:E3; simpl; auto;
    rewrite ?Z.ltb_lt, ?Z.ltb_ge in *; lia.
Qed.

Lemma swept_twice (f g : string * Job -> bool) (l : JsMap Job) :
  (List.length (filter f l)
   + List.length (filter g (filter (fun e => negb (f e)) l)))%nat
  = List.length (filter (fun e => f e || g e) l).
Proof.
  induction l as [|x l IH]; simpl; auto.
  destruct (f x); simpl.
  - now rewrite <- IH.
  - destruct (g x); simpl; rewrite <- IH; lia.
Qed.

(** X9: two sweeps at one clock reading, with any two windows, leave the
    jobs that a single sweep with the smaller window leaves, and the numbers
    they return add up to the number that sweep returns. *)
Theorem clean_twice (q : JobQueue) (d1 d2 now : Z)
    (Hkeys : keys_unique (jobs q)) :
  jobs (snd (clean (snd (clean q d1 now)) d2 now))
  = jobs (snd (clean q (Z.min d1 d2) now))
  /\ (fst (clean q d1 now) + fst (clean (snd (clean q d1 now)) d2 now))%nat
     = fst (clean q (Z.min d1 d2) now).
Proof.
  destruct (clean_result q d1 now Hkeys) as (Hn1 & Hj1 & _).
  destruct (clean_result q (Z.min d1 d2) now Hkeys) as (Hn & Hj & _).
  assert (Hk1 : keys_unique (jobs (snd (clean q d1 now)))).
  { rewrite Hj1. now apply keys_unique_filter. }
  destruct (clean_result (snd (clean q d1 now)) d2 now Hk1) as (Hn2 & Hj2 & _).
  split.
  - rewrite Hj2, Hj1, Hj, filter_filter. apply filter_ext.
    intros e. rewrite is_old_terminal_min. now rewrite negb_orb.
  - rewrite Hn1, Hn2, Hj1, Hn, swept_twice. f_equal. apply filter_ext.
    intros e. now rewrite is_old_terminal_min.
Qed.

(** ** The backoff schedule *)

Lemma settle_retries (q : JobQueue) (o : Outcome) (j : Job) (now : Z) :
  map_has (type j) (processors q) = true ->
  o = TimedOut \/ (exists message, o = Rejected message) ->
  (attempts j < maxRetries j)%nat ->
  status (settle q j o now) = waiting
  /\ attempts (settle q j o now) = S (attempts j)
  /\ processAt (settle q j o now)
     = now + backoff (Cfg.retryDelay (config q)) (S (attempts j))
  /\ type (settle q j o now) = type j
  /\ maxRetries (settle q j o now) = maxRetries j.
Proof.
  intros Hp Hfails Hlt. unfold settle. rewrite Hp. simpl.
  apply Nat.ltb_lt in Hlt.
  destruct Hfails as [->|[message ->]]; rewrite Hlt; simpl; auto.
Qed.

Lemma settle_exhausted (q : JobQueue) (o : Outcome) (j : Job) (now : Z) :
  map_has (type j) (processors q) = true ->
  o = TimedOut \/ (exists message, o = Rejected message) ->
  attempts j = maxRetries j ->
  status (settle q j o now) = failed
  /\ attempts (settle q j o now) = attempts j
  /\ processAt (settle q j o now) = processAt j.
Proof.
  intros Hp Hfails Heq. unfold settle. rewrite Hp. simpl.
  assert (Hlt : (attempts j <? maxRetries j)%nat = false)
    by (apply Nat.ltb_ge; lia).
  destruct Hfails as [->|[message ->]]; rewrite Hlt; simpl; auto.
Qed.

(** X10: a job whose processor is registered and fails [k] times in a row
    (by timeout or by a rejection with a reason), each time at the very
    clock reading at which the job is due, [k] being no more than the
    retries it has left: [executeJob] retries it each time, [attempts] is
    raised by [k], and the job is next due
    [retryDelay * 2^attempts * (2^k - 1)] after the time it was due at
    first, [attempts] being the count before these failures; for a new job
    that is [retryDelay * (2^k - 1)]. When these were all the retries it
    had, the next such failure leaves it failed, with [attempts] and
    [processAt] as they were. *)
Theorem backoff_schedule (q : JobQueue) (o : Outcome) (job : Job) (k : nat)
    (Hprocessor : map_has (type job) (processors q) = true)
    (Hfails : o = TimedOut \/ (exists message, o = Rejected message))
    (Hretries : (attempts job + k <= maxRetries job)%nat) :
  let fail_when_due (j : Job) :=
    settle q (claim j (processAt j)) o (processAt j) in
  (forall key j now,
     map_get key (jobs q) = Some j ->
     map_get key (jobs (executeJob q key o now)) = Some (settle q j o now))
  /\ attempts (Nat.iter k fail_when_due job) = (attempts job + k)%nat
  /\ maxRetries (Nat.iter k fail_when_due job) = maxRetries job
  /\ ((0 < k)%nat -> status (Nat.iter k fail_when_due job) = waiting)
  /\ processAt (Nat.iter k fail_when_due job)
     = processAt job
       + Cfg.retryDelay (config q) * 2 ^ Z.of_nat (attempts job)
         * (2 ^ Z.of_nat k - 1)
  /\ ((attempts job + k = maxRetries job)%nat ->
      status (fail_when_due (Nat.iter k fail_when_due job)) = failed
      /\ attempts (fail_when_due (Nat.iter k fail_when_due job)) = maxRetries job
      /\ processAt (fail_when_due (Nat.iter k fail_when_due job))
         = processAt (Nat.iter k fail_when_due job)).
Proof.
  intros fail_when_due.
  split; [intros key j now Hget; now rewrite executeJob_get, Hget|].
  assert (Hiter : attempts (Nat.iter k fail_when_due job) = (attempts job + k)%nat
            /\ maxRetries (Nat.iter k fail_when_due job) = maxRetries job
            /\ type (Nat.iter k fail_when_due job) = type job
            /\ ((0 < k)%nat -> status (Nat.iter k fail_when_due job) = waiting)
            /\ processAt (Nat.iter k fail_when_due job)
               = processAt job
                 + Cfg.retryDelay (config q) * 2 ^ Z.of_nat (attempts job)
                   * (2 ^ Z.of_nat k - 1)).
  { induction k as [|k IH].
    - simpl. repeat split; try lia.
    - destruct IH as (IHa & IHm & IHt & _ & IHp); [lia|].
      cbn [Nat.iter nat_rect]. fold (Nat.iter k fail_when_due job).
      set (j := Nat.iter k fail_when_due job) in *.
      destruct (@settle_retries q o (claim j (processAt j)) (processAt j))
        as (Hs & Ha & Hp & Ht & Hm); auto.
      { simpl. now rewrite IHt. }
      { simpl. lia. }
      unfold fail_when_due at 1 2 3 4 5.
      rewrite Hs, Ha, Hp, Ht, Hm. simpl.
      split; [lia|]. split; [exact IHm|]. split; [exact IHt|]. split; [auto|].
      rewrite IHa, IHp. unfold backoff.
      replace (Z.of_nat (S (attempts job + k)) - 1)
        with (Z.of_nat (attempts job) + Z.of_nat k) by lia.
      rewrite Z.pow_add_r by lia.
      change (Z.pow_pos 2 (Pos.of_succ_nat k)) with (2 ^ Z.of_nat (S k)).
      rewrite Nat2Z.inj_succ, Z.pow_succ_r by lia. ring. }
  destruct Hiter as (Ha & Hm & Ht & Hs & Hp).
  split; [exact Ha|]. split; [exact Hm|]. split; [exact Hs|]. split; [exact Hp|].
  intros Hall.
  set (j := Nat.iter k fail_when_due job) in *.
  destruct (@settle_exhausted q o (claim j (processAt j)) (processAt j))
    as (Hs' & Ha' & Hp'); auto.
  { simpl. now rewrite Ht. }
  { simpl. lia. }
  unfold fail_when_due. rewrite Hs', Ha', Hp'. simpl.
  split; [reflexivity|]. split; [lia|reflexivity].
Qed.

(** ** A worker's turn *)

Lemma map_set_same_value (V : Type) (m : JsMap V) (k : string) (v : V) :
  map_get k m = Some v -> map_set k v m = m.
Proof.
  induction m as [|[k0 v0] m IH]; simpl; [discriminate|].
  destruct (String.eqb k k0) eqn:E.
  - apply String.eqb_eq in E. subst k0. now intros [= ->].
  - intros H. now rewrite IH.
Qed.

Lemma executeJob_jobs (q : JobQueue) (key : string) (j : Job) (o : Outcome)
    (now : Z) :
  map_get key (jobs q) = Some j ->
  jobs (executeJob q key o now) = map_set key (settle q j o now) (jobs q)
  /\ activeJobs (stats (executeJob q key o now))
     = activeJobs (stats q) - (if executeJob_throws q key o then 0 else 1).
Proof.
  intros Hget. unfold executeJob, executeJob_throws, settle. rewrite Hget.
  destruct (map_has (type j) (processors q)); simpl.
  - destruct o; try destruct (attempts j <? maxRetries j)%nat; simpl; auto.
    all: split; [|lia]; symmetry; now apply map_set_same_value.
  - destruct o; auto.
Qed.

Lemma settle_not_active (q : JobQueue) (key : string) (j : Job) (o : Outcome)
    (now : Z) :
  map_get key (jobs q) = Some j ->
  same_identity j (settle q j o now)
  /\ if executeJob_throws q key o
     then settle q j o now = j
     else status (settle q j o now) <> active.
Proof.
  intros Hget. unfold settle, executeJob_throws, same_identity. rewrite Hget.
  destruct (map_has (type j) (processors q)); simpl.
  - destruct o; try destruct (attempts j <? maxRetries j)%nat; simpl;
      (split; [intuition|first [discriminate|reflexivity]]).
  - destruct o; (split; [intuition|discriminate]).
Qed.

(** X11: a worker on a stopped queue does nothing. On a running queue, when
    no job is due its turn leaves the queue as it is; otherwise the job it
    claims is still stored at the end of the turn, with the fields [add]
    gave it, no other entry has changed, and the worker no longer holds the
    job. When [executeJob] has not thrown, the job is completed, waiting or
    failed, never active, and the active counter is what it was before the
    turn; when it has thrown (the processor is registered and rejects with
    [null] or [undefined]), the job is left active as it was claimed, and
    the active counter is one more than before the turn. Unless the job is
    due again at [now], the number of jobs due at [now] has dropped by
    one. *)
Theorem worker_turn_settles (q : JobQueue) (now : Z) (o : Outcome) (later : Z)
    (Hkeys : keys_unique (jobs q)) :
  (isRunning q = false -> worker_turn q now o later = q)
  /\ (isRunning q = true ->
      match fst (getNextJob q now) with
      | None => worker_turn q now o later = q
      | Some claimed =>
          exists key job',
            map_get key (jobs (snd (getNextJob q now))) = Some claimed
            /\ map_get key (jobs (worker_turn q now o later)) = Some job'
            /\ same_identity claimed job'
            /\ (forall k, k <> key ->
                  map_get k (jobs (worker_turn q now o later))
                  = map_get k (jobs q))
            /\ held (worker_turn q now o later) key = false
            /\ (if executeJob_throws (snd (getNextJob q now)) key o
                then job' = claimed /\ status job' = active
                     /\ activeJobs (stats (worker_turn q now o later))
                        = activeJobs (stats q) + 1
                else status job' <> active
                     /\ activeJobs (stats (worker_turn q now o later))
                        = activeJobs (stats q))
            /\ (ready now job' = false ->
                count (ready now) (map_values (jobs (worker_turn q now o later)))
                = count (ready now) (map_values (jobs q)) - 1)
      end).
Proof.
  unfold worker_turn. split; [intros ->; reflexivity|]. intros ->.
  unfold processLoop_getNextJob, getNextJob.
  destruct (scan now (jobs q)) as [[key before]|] eqn:Es; simpl; [|reflexivity].
  destruct (scan_found now (jobs q) Es) as [Hin Hr].
  pose proof (In_map_get (jobs q) key before Hkeys Hin) as Hget.
  set (q0 := mkQueue (config q) (map_set key (claim before now) (jobs q))
               (processors q) _ (isRunning q) (currentJobs q)).
  set (q1 := set_currentJobs q0 (key :: currentJobs q)).
  assert (Hget1 : map_get key (jobs q1) = Some (claim before now))
    by apply map_get_set_same.
  destruct (executeJob_jobs q1 key o later Hget1) as [Hjobs Hactive].
  destruct (@settle_not_active q1 key (claim before now) o later Hget1)
    as [Hsame Hna].
  assert (Hthrows : executeJob_throws q0 key o = executeJob_throws q1 key o)
    by reflexivity.
  exists key, (settle q1 (claim before now) o later).
  split; [exact Hget1|].
  split; [rewrite Hjobs; apply map_get_set_same|].
  split; [exact Hsame|].
  split; [|split; [|split]].
  - intros k Hne. rewrite Hjobs, map_get_set_other by exact Hne.
    simpl. now apply map_get_set_other.
  - unfold held, processLoop_executeJob. simpl.
    rewrite String.eqb_refl. simpl.
    rewrite existsb_released, String.eqb_refl. reflexivity.
  - rewrite Hthrows, Hactive.
    destruct (executeJob_throws q1 key o).
    + rewrite Hna. simpl. repeat split; lia.
    + split; [exact Hna|]. simpl. lia.
  - intros Hnot. rewrite Hjobs. simpl.
    rewrite (count_set_present _ _ _ _ Hget1).
    change (jobs q1) with (map_set key (claim before now) (jobs q)).
    rewrite (count_set_present _ _ _ _ Hget).
    rewrite Hr, Hnot. unfold ready at 2. simpl. lia.
Qed.

(** ** The order of the store *)

Lemma stamped_later (t t' : Z) (m : JsMap Job) :
  t <= t' -> stamped t m -> stamped t' m.
Proof.
  intros Hle [Hs Hall]. split; auto.
  eapply Forall_impl; [|exact Hall]. simpl. intros e He. lia.
Qed.

Lemma created_in_order_replace (l1 l2 : list Job) (j j' : Job) :
  createdAt j' = createdAt j ->
  created_in_order (l1 ++ j :: l2) -> created_in_order (l1 ++ j' :: l2).
Proof.
  intros Hsame. unfold created_in_order.
  induction l1 as [|x l1 IH]; simpl; intros Hs;
    inversion Hs as [|? ? Hs' Hf]; subst.
  - constructor; auto.
    eapply Forall_impl; [|exact Hf]. simpl. intros y Hy. lia.
  - constructor; auto.
    apply Forall_app in Hf as [Hf1 Hf2].
    inversion Hf2 as [|? ? Hx Hf2']; subst.
    apply Forall_app. split; auto. constructor; auto. lia.
Qed.

Lemma stamped_set_present (t : Z) (m : JsMap Job) (k : string) (j j' : Job) :
  map_get k m = Some j -> createdAt j' = createdAt j ->
  stamped t m -> stamped t (map_set k j' m).
Proof.
  intros Hget Hsame [Hs Hall].
  destruct (map_set_present m k j' Hget) as (l1 & l2 & Hm & Hm').
  rewrite Hm' . rewrite Hm in Hs, Hall. clear Hm Hm' Hget. split.
  - unfold map_values in *. rewrite map_app in *. simpl in *.
    now apply created_in_order_replace with j.
  - apply Forall_app in Hall as [Hall1 Hall2].
    inversion Hall2 as [|? ? Hj Hall2']; subst. simpl in Hj.
    apply Forall_app. split; auto. constructor; auto. simpl. lia.
Qed.

Lemma stamped_filter (t : Z) (m : JsMap Job) (f : string * Job -> bool) :
  stamped t m -> stamped t (filter f m).
Proof.
  intros [Hs Hall]. split.
  - unfold created_in_order, map_values in *. clear Hall.
    induction m as [|x m IH]; simpl in *; auto.
    inversion Hs as [|? ? Hs' Hf]; subst.
    destruct (f x); simpl; auto. constructor; auto.
    rewrite Forall_forall in *. intros y Hy. apply Hf.
    apply in_map_iff in Hy as (e & <- & He). apply filter_In in He as [He _].
    now apply in_map.
  - rewrite Forall_forall in *. intros e He. apply filter_In in He as [He _]. auto.
Qed.

Lemma stamped_set_absent (t : Z) (m : JsMap Job) (k : string) (j : Job) :
  map_get k m = None -> stamped (createdAt j) m ->
  stamped (createdAt j) (map_set k j m).
Proof.
  intros Hnone [Hs Hall]. rewrite (map_set_absent m k j Hnone). split.
  - unfold created_in_order, map_values in *. rewrite map_app. simpl.
    clear Hnone. induction m as [|x m IH]; simpl in *.
    + constructor; auto.
    + inversion Hs as [|? ? Hs' Hf]; subst.
      inversion Hall as [|? ? Hx Hall']; subst.
      constructor; auto. apply Forall_app. split; auto.
  - apply Forall_app. split; auto. constructor; auto. simpl. lia.
Qed.

Lemma step_stamped (q : JobQueue) (now t : Z) (op : Op) :
  keys_unique (jobs q) -> stamped t (jobs q) -> t <= now ->
  (forall k, adds k op = true -> map_get k (jobs q) = None) ->
  stamped now (jobs (step q now op)).
Proof.
  intros Hk Hst Hle Hfresh.
  pose proof (stamped_later Hle Hst) as Hnow.
  destruct op as [newId jobType payload options|jobType| |
                  |k o|k message|k percent|jobId|olderThan| |jobId];
    simpl; auto.
  - apply (@stamped_set_absent now (jobs q) newId
             (fst (enqueue q newId jobType payload options now))); auto.
    apply Hfresh. simpl. apply String.eqb_refl.
  - unfold processLoop_getNextJob, getNextJob.
    destruct (scan now (jobs q)) as [[k job]|] eqn:Es; simpl; auto.
    apply scan_found in Es as [Hin _].
    apply In_map_get in Hin; [|exact Hk].
    now apply stamped_set_present with job.
  - destruct (held q k) eqn:Eh; auto.
    apply held_active in Eh as (_ & job & Ej & _).
    unfold processLoop_executeJob. simpl.
    destruct (executeJob_jobs q k o now Ej) as [-> _].
    apply stamped_set_present with job; auto.
    destruct (@settle_not_active q k job o now Ej) as [Hid _].
    unfold same_identity in Hid. intuition.
  - unfold logJob, write_job.
    destruct (map_get k (jobs q)) as [job|] eqn:Ej; simpl; auto.
    now apply stamped_set_present with job.
  - unfold updateJobProgress, write_job.
    destruct (map_get k (jobs q)) as [job|] eqn:Ej; simpl; auto.
    now apply stamped_set_present with job.
  - unfold remove. destruct (map_get jobId (jobs q)) as [job|]; auto.
    destruct (has_status active job); simpl; auto.
    now apply stamped_filter.
  - destruct (clean_result q olderThan now Hk) as (_ & -> & _).
    now apply stamped_filter.
  - unfold delayTimer. destruct (map_get jobId (jobs q)) as [job|]; auto.
    destruct (has_status waiting job); auto.
Qed.

Lemma run_stamped (ops : list (Z * Op)) (q : JobQueue) (t : Z) :
  keys_unique (jobs q) -> stamped t (jobs q) ->
  StronglySorted Z.le (t :: map fst ops) -> NoDup (issued ops) ->
  (forall k, In k (map_keys (jobs q)) -> ~ In k (issued ops)) ->
  exists t', stamped t' (jobs (run q ops)).
Proof.
  revert q t. induction ops as [|[now op] ops IH]; intros q t Hk Hst Hclock Hnd Hold.
  - exists t. exact Hst.
  - destruct (issued_tail now op ops Hnd) as [Hnd' Hnew].
    simpl in Hclock. inversion Hclock as [|? ? Hrest Hall]; subst.
    inversion Hall as [|? ? Hle Hall']; subst.
    assert (Hfresh : forall k, adds k op = true -> map_get k (jobs q) = None).
    { intros k Ha. destruct (map_get k (jobs q)) as [j|] eqn:E; auto.
      exfalso. apply (Hold k).
      - apply map_keys_get. eauto.
      - apply issued_cons. now left. }
    simpl run. apply (IH (step q now op) now); auto.
    + now apply step_keys_unique.
    + now apply step_stamped with t.
    + intros k Hin Hiss. destruct (step_keys_in q now op k Hk Hin) as [H|H].
      * apply (Hold k H). apply issued_cons. now right.
      * now apply (Hnew k H).
Qed.

(** In a run from a new queue whose clock readings never decrease and in
    which [generateJobId] never repeats an identifier, the store holds its
    jobs in the order of their creation times. *)
Lemma run_created_in_order (c : Cfg.input) (ops : list (Z * Op)) :
  clock_in_order ops -> NoDup (issued ops) ->
  created_in_order (map_values (jobs (run (newJobQueue c) ops))).
Proof.
  intros Hclock Hnd.
  destruct (newJobQueue_invariant c) as [Hk0 _].
  destruct ops as [|[now op] ops]; [constructor|].
  assert (Hst0 : stamped now (jobs (newJobQueue c))).
  { split; constructor. }
  destruct (@run_stamped ((now, op) :: ops) (newJobQueue c) now Hk0 Hst0)
    as [t' [Hs _]]; auto.
  unfold clock_in_order in Hclock. simpl in *.
  constructor; auto. constructor; [lia|].
  inversion Hclock; subst. auto.
Qed.

(** ** The scheduler's choice *)

(** C1 (as amended): the job [getNextJob] returns was waiting with
    [processAt <= now]; no ready job has a higher priority; every ready job
    stored before it has a strictly lower priority, so that among the ready
    jobs of highest priority it is the first in the store's insertion
    order, and hence one of earliest [createdAt] whenever the store holds
    its jobs in the order of their creation times. When no job is ready,
    none is selected and the queue is left as it was. The store holds its
    jobs in the order of their creation times in every run from a new queue
    whose clock readings never decrease and in which [generateJobId] never
    repeats an identifier. *)
Theorem getNextJob_selects (q : JobQueue) (now : Z) :
  match fst (getNextJob q now) with
  | Some nextJob =>
      exists key job l1 l2,
        jobs q = l1 ++ (key, job) :: l2
        /\ nextJob = claim job now
        /\ status job = waiting /\ processAt job <= now
        /\ (forall e, In e (jobs q) -> ready now (snd e) = true ->
              priority (snd e) <= priority job)
        /\ (forall e, In e l1 -> ready now (snd e) = true ->
              priority (snd e) < priority job)
        /\ (created_in_order (map_values (jobs q)) ->
            forall e, In e (jobs q) -> ready now (snd e) = true ->
              priority (snd e) = priority job -> createdAt job <= createdAt (snd e))
  | None =>
      (forall e, In e (jobs q) -> ready now (snd e) = false)
      /\ getNextJob q now = (None, q)
  end
  /\ forall (c : Cfg.input) (ops : list (Z * Op)),
       q = run (newJobQueue c) ops -> clock_in_order ops -> NoDup (issued ops) ->
       created_in_order (map_values (jobs q)).
Proof.
  split; [|intros c ops ->; apply run_created_in_order].
  pose proof (scan_scanned now (jobs q)) as H.
  unfold getNextJob, scan. unfold scanned in H.
  destruct (fst (fold_left (scan_body now) (jobs q) (None, None))) as [[key job]|];
    simpl in *.
  - destruct H as (_ & Hr & l1 & l2 & Hsplit & H1 & H2).
    apply ready_spec in Hr as Hr'. destruct Hr' as [Hw Hp].
    exists key, job, l1, l2. repeat split; auto.
    + intros e He Hre. rewrite Hsplit in He.
      apply in_app_or in He as [He|[<-|He]]; simpl.
      * specialize (H1 e He Hre). lia.
      * lia.
      * exact (H2 e He Hre).
    + intros Hord e He Hre Heq. rewrite Hsplit in He, Hord.
      apply in_app_or in He as [He|[<-|He]]; simpl.
      * specialize (H1 e He Hre). lia.
      * lia.
      * unfold map_values in Hord. rewrite map_app in Hord. simpl in Hord.
        apply StronglySorted_middle in Hord.
        rewrite Forall_forall in Hord. apply Hord. now apply in_map.
  - destruct H as [_ H]. split; auto.
Qed.

(** C1 (counterexample): on a running queue, [add] stores job [a] at clock
    reading 10 and then job [b] at clock reading 5. Both are ready at 20 and
    have the same priority; the scheduler returns [a], the first stored,
    although [b] has the earlier [createdAt]. *)
Lemma getNextJob_ignores_createdAt :
  exists a b : Job,
    jobs tie_queue = [("a", a); ("b", b)]
    /\ ready 20 a = true /\ ready 20 b = true
    /\ priority a = priority b
    /\ createdAt b < createdAt a
    /\ fst (getNextJob tie_queue 20) = Some (claim a 20).
Proof.
  do 2 eexists. split; [reflexivity|].
  repeat split; vm_compute; reflexivity.
Qed.

(** ** The listing and the scheduler *)

(** C8 (as amended): [getJobs] returns the first [limit] jobs of the stable
    ordering, by priority descending and then [createdAt] ascending, of the
    stored jobs that have the given status (of all stored jobs without a
    status): each returned job is stored and matches, the result is sorted
    and no longer than [limit]. Whenever the store holds its jobs in the
    order of their creation times, the job the scheduler claims next is the
    first ready job of the complete listing of waiting jobs; the store does
    so in every run from a new queue whose clock readings never decrease
    and in which [generateJobId] never repeats an identifier. *)
Theorem getJobs_spec (q : JobQueue) (st : option Status) (limit : nat) (now : Z) :
  let matching :=
    match st with
    | Some s => filter (fun j => Status_eqb (status j) s) (map_values (jobs q))
    | None => map_values (jobs q)
    end in
  (forall j, In j (getJobs q st limit) ->
     In j (map_values (jobs q))
     /\ match st with Some s => status j = s | None => True end)
  /\ (exists full, Permutation full matching
                   /\ StronglySorted listed_before full
                   /\ getJobs q st limit = firstn limit full)
  /\ StronglySorted listed_before (getJobs q st limit)
  /\ (List.length (getJobs q st limit) <= limit)%nat
  /\ (created_in_order (map_values (jobs q)) ->
      (map_size (jobs q) <= limit)%nat ->
      option_map (fun j => claim j now)
        (find (ready now) (getJobs q (Some waiting) limit))
      = fst (getNextJob q now))
  /\ forall (c : Cfg.input) (ops : list (Z * Op)),
       q = run (newJobQueue c) ops -> clock_in_order ops -> NoDup (issued ops) ->
       created_in_order (map_values (jobs q)).
Proof.
  intros matching.
  assert (Hdef : getJobs q st limit = firstn limit (js_sort matching)).
  { unfold getJobs, matching. destruct st; reflexivity. }
  split; [|split; [|split; [|split; [|split]]]].
  - intros j Hj. rewrite Hdef in Hj. apply firstn_In in Hj.
    apply (Permutation_in _ (js_sort_perm matching)) in Hj.
    unfold matching in Hj. destruct st as [s|]; auto.
    apply filter_In in Hj as [Hin Hs]. split; auto. now apply Status_eqb_eq.
  - exists (js_sort matching). split; [apply js_sort_perm|].
    split; [apply js_sort_sorted | exact Hdef].
  - rewrite Hdef. apply firstn_sorted, js_sort_sorted.
  - rewrite Hdef. apply firstn_le_length.
  - intros Hord Hlimit. rewrite getNextJob_scan, scan_best. f_equal.
    unfold getJobs. rewrite firstn_all2.
    + rewrite find_ready_sorted by now apply created_in_order_filter.
      apply best_waiting.
    + rewrite (Permutation_length (js_sort_perm _)).
      etransitivity; [apply filter_length_le|].
      unfold map_values. rewrite length_map. exact Hlimit.
  - intros c ops ->. apply run_created_in_order.
Qed.

(** C8 (counterexample): on a running queue, [add] stores job [a] at clock
    reading 10 and then job [b] at clock reading 5, with equal priorities.
    The listing of the waiting jobs puts [b] first; the scheduler, at clock
    reading 20 where both are ready, claims [a]. *)
Lemma getJobs_order_is_not_dispatch_order :
  exists a b : Job,
    jobs tie_queue = [("a", a); ("b", b)]
    /\ getJobs tie_queue (Some waiting) 50 = [b; a]
    /\ find (ready 20) (getJobs tie_queue (Some waiting) 50) = Some b
    /\ fst (getNextJob tie_queue 20) = Some (claim a 20)
    /\ claim a 20 <> claim b 20.
Proof.
  do 2 eexists. split; [reflexivity|].
  repeat split; try (vm_compute; reflexivity).
  vm_compute. discriminate.
Qed.

(** ** The registry *)

(** X12: [getQueue] creates a queue only for a name that has none, names it
    [name] whatever the given configuration says, and registers it; for a
    name that has a queue it returns that queue and ignores the
    configuration. Asking again returns the same queue and leaves the
    registry as it is, and queues under other names are never touched. *)
Theorem getQueue_once (queues : JsMap JobQueue) (name : string) (c c' : Cfg.input) :
  let q := fst (getQueue queues name c) in
  let queues' := snd (getQueue queues name c) in
  map_get name queues' = Some q
  /\ getQueue queues' name c' = (q, queues')
  /\ (forall other, other <> name -> map_get other queues' = map_get other queues)
  /\ (forall existing, map_get name queues = Some existing ->
        q = existing /\ queues' = queues)
  /\ (map_get name queues = None ->
        q = newJobQueue (with_name c name)
        /\ Cfg.name (config q) = name
        /\ jobs q = [] /\ isRunning q = false
        /\ queues' = queues ++ [(name, q)]).
Proof.
  unfold getQueue.
  destruct (map_get name queues) as [existing|] eqn:E; simpl.
  - rewrite E. repeat split; auto; try congruence; discriminate.
  - rewrite map_get_set_same. repeat split; auto; try discriminate.
    + intros other Hne. now apply map_get_set_other.
    + now apply map_set_absent.
Qed.

(** ** The commands *)

Lemma getJobs_empty (q : JobQueue) (st : option Status) (limit : nat) :
  getJobs q st limit = [] <->
  limit = 0%nat
  \/ match st with
     | Some s => forall j, In j (map_values (jobs q)) -> status j <> s
     | None => jobs q = []
     end.
Proof.
  unfold getJobs.
  set (matching := match st with
                   | Some s => filter (has_status s) (map_values (jobs q))
                   | None => map_values (jobs q)
                   end).
  assert (Hlen : List.length (js_sort matching) = List.length matching)
    by apply Permutation_length, js_sort_perm.
  assert (Hm : matching = [] <->
               match st with
               | Some s => forall j, In j (map_values (jobs q)) -> status j <> s
               | None => jobs q = []
               end).
  { unfold matching. destruct st as [s|].
    - split.
      + intros He j Hj Hs.
        assert (Hin : In j (filter (has_status s) (map_values (jobs q)))).
        { apply filter_In. split; auto. now apply has_status_true. }
        rewrite He in Hin. destruct Hin.
      + intros Hno.
        destruct (filter (has_status s) (map_values (jobs q))) as [|x l] eqn:E; auto.
        assert (Hx : In x (filter (has_status s) (map_values (jobs q))))
          by (rewrite E; now left).
        apply filter_In in Hx as [Hx Hs]. apply has_status_true in Hs.
        now destruct (Hno x Hx).
    - unfold map_values. split.
      + intros H. now apply map_eq_nil in H.
      + intros ->. reflexivity. }
  rewrite <- Hm. split.
  - intros H. destruct limit as [|n]; [now left|right].
    destruct (js_sort matching) as [|x l]; [|discriminate H].
    destruct matching; [reflexivity|discriminate Hlen].
  - intros [-> | ->]; [reflexivity|apply firstn_nil].
Qed.


(** X14: for a registered queue, [queue:jobs] returns what [getJobs] returns
    with the limit given (10 when absent), except that it returns
    [undefined] in place of an empty listing, which happens exactly when
    the limit is 0 or no stored job has the status asked for (no job is
    stored, without a status). *)
Theorem queue_jobs_handler_spec (queues : JsMap JobQueue) (name : option string)
    (st : option Status) (limit : option nat) (q : JobQueue)
    (Hqueue : map_get (spread "default" name) queues = Some q) :
  (queue_jobs_handler queues name st limit = None <->
   spread 10%nat limit = 0%nat
   \/ match st with
      | Some s => forall j, In j (map_values (jobs q)) -> status j <> s
      | None => jobs q = []
      end)
  /\ forall js, queue_jobs_handler queues name st limit = Some js ->
       js = getJobs q st (spread 10%nat limit) /\ js <> [].
Proof.
  unfold queue_jobs_handler. rewrite Hqueue.
  rewrite <- getJobs_empty.
  destruct (getJobs q st (spread 10%nat limit)) as [|x l].
  - split; [tauto|discriminate].
  - split.
    + split; discriminate.
    + intros js [= <-]. split; [reflexivity|discriminate].
Qed.

(** ** Listings with and without a status *)

Lemma sort_insert_first (x : Job) (l : list Job) :
  Forall (listed_before x) l -> sort_insert x l = x :: l.
Proof.
  intros H. destruct l as [|y l]; simpl; auto.
  inversion H as [|? ? Hy _]; subst.
  apply compareJobs_le, Z.leb_le in Hy. now rewrite Hy.
Qed.

Lemma filter_sort_insert (p : Job -> bool) (x : Job) (l : list Job) :
  StronglySorted listed_before l ->
  filter p (sort_insert x l)
  = if p x then sort_insert x (filter p l) else filter p l.
Proof.
  induction 1 as [|y l Hs IH Hall]; simpl.
  - destruct (p x); reflexivity.
  - destruct (compareJobs x y <=? 0) eqn:E; simpl.
    + destruct (p x) eqn:Ex; auto.
      destruct (p y) eqn:Ey; simpl.
      * now rewrite E.
      * symmetry. apply sort_insert_first.
        apply Z.leb_le, compareJobs_le in E.
        rewrite Forall_forall in *. intros z Hz.
        apply filter_In in Hz as [Hz _].
        eapply listed_before_trans; eauto.
    + rewrite IH. destruct (p y) eqn:Ey; destruct (p x) eqn:Ex; simpl; auto.
      now rewrite E.
Qed.

Lemma js_sort_filter (p : Job -> bool) (l : list Job) :
  js_sort (filter p l) = filter p (js_sort l).
Proof.
  induction l as [|x l IH]; simpl; auto.
  rewrite filter_sort_insert by apply js_sort_sorted.
  destruct (p x); simpl; now rewrite IH.
Qed.

(** X15: the listing for a status is the complete listing of all jobs with
    the jobs of other statuses left out, cut at the limit: the two views
    order the jobs they share in the same way. A listing with a smaller
    limit is the beginning of the listing with a larger one. *)
Theorem getJobs_views_agree (q : JobQueue) (s : Status) (st : option Status)
    (limit larger : nat) :
  getJobs q (Some s) limit
  = firstn limit
      (filter (fun j => Status_eqb (status j) s)
         (getJobs q None (map_size (jobs q))))
  /\ ((limit <= larger)%nat ->
      getJobs q st limit = firstn limit (getJobs q st larger)).
Proof.
  split.
  - unfold getJobs. f_equal.
    rewrite (firstn_all2 (n := map_size (jobs q))).
    + apply (js_sort_filter (has_status s)).
    + rewrite (Permutation_length (js_sort_perm _)).
      unfold map_values, map_size. now rewrite length_map.
  - intros Hle. unfold getJobs. rewrite firstn_firstn.
    now rewrite Nat.min_l by exact Hle.
Qed.

(** ** Instances *)

Ltac concrete_keys :=
  unfold keys_unique; simpl;
  repeat (constructor; [simpl; intuition discriminate|]); constructor.

Lemma step_transition_witness :
  same_identity claimed_job (completeJob_job claimed_job JsNull 2010).
Proof.
  assert (Hk : keys_unique (jobs (run (newJobQueue Cfg.no_input) claimed_run)))
    by concrete_keys.
  exact (proj1 (@step_transition (run (newJobQueue Cfg.no_input) claimed_run) 2010
                  (OpExecuteJob "j1" (Resolved JsNull)) "j1" claimed_job
                  Hk eq_refl eq_refl)).
Defined.

Lemma run_evolution_witness :
  (attempts claimed_job <= attempts flaky_job)%nat
  /\ maxRetries flaky_job = maxRetries claimed_job.
Proof.
  assert (Hk : keys_unique (jobs (run (newJobQueue Cfg.no_input) claimed_run)))
    by concrete_keys.
  destruct (@run_evolution (run (newJobQueue Cfg.no_input) claimed_run)
              [ (2010, OpExecuteJob "j1" (Rejected (Some "boom")));
                (8000, OpGetNextJob) ]
              "j1" claimed_job flaky_job Hk eq_refl (fun H => H) eq_refl)
    as (Hsame & Hatt & _).
  split; [exact Hatt|]. apply Hsame.
Defined.

Lemma records_consistent_witness :
  id flaky_job = "j1" /\ exists s, startedAt flaky_job = Some s.
Proof.
  destruct (@records_consistent Cfg.no_input flaky_run "j1" flaky_job eq_refl)
    as (Hid & _ & _ & _ & Hactive & _).
  split; [exact Hid|]. apply Hactive. reflexivity.
Defined.

Lemma claim_exclusive_witness :
  getJob (snd (getNextJob (run (newJobQueue Cfg.no_input) two_jobs_run) 3)) "b"
  = Some second_job
  /\ status second_job = active.
Proof.
  destruct (@claim_exclusive Cfg.no_input two_jobs_run 3 second_job eq_refl)
    as (_ & Hstored & Hactive & _).
  split; [exact Hstored|exact Hactive].
Defined.

Lemma counters_agree_witness :
  activeJobs (stats (run (newJobQueue Cfg.no_input) flaky_run)) = 1
  /\ totalJobs (stats (run (newJobQueue Cfg.no_input) flaky_run)) = 1.
Proof.
  assert (Hfresh : NoDup (issued flaky_run)).
  { simpl. constructor; [intros []|constructor]. }
  destruct (@counters_agree Cfg.no_input flaky_run Hfresh)
    as (Ha & _ & _ & _ & _ & Ht).
  split; [exact Ha|exact Ht].
Defined.

Lemma clean_twice_witness :
  (fst (clean (run (newJobQueue Cfg.no_input) done_run) 100 5000)
   + fst (clean (snd (clean (run (newJobQueue Cfg.no_input) done_run) 100 5000))
            50 5000))%nat
  = fst (clean (run (newJobQueue Cfg.no_input) done_run) 50 5000).
Proof.
  assert (Hk : keys_unique (jobs (run (newJobQueue Cfg.no_input) done_run)))
    by concrete_keys.
  exact (proj2 (@clean_twice (run (newJobQueue Cfg.no_input) done_run) 100 50 5000
                  Hk)).
Defined.

Lemma worker_turn_settles_witness :
  exists key job',
    map_get key
      (jobs (worker_turn (run (newJobQueue Cfg.no_input) two_jobs_run) 3
               (Resolved JsNull) 4)) = Some job'
    /\ status job' <> active.
Proof.
  assert (Hk : keys_unique (jobs (run (newJobQueue Cfg.no_input) two_jobs_run)))
    by concrete_keys.
  destruct (proj2 (@worker_turn_settles (run (newJobQueue Cfg.no_input) two_jobs_run)
                     3 (Resolved JsNull) 4 Hk) eq_refl)
    as (key & job' & _ & Hstored & _ & _ & _ & Hsettled & _).
  exists key, job'. split; [exact Hstored|exact (proj1 Hsettled)].
Defined.


Lemma add_then_remove_witness :
  fst (remove
         (snd (add (run (newJobQueue Cfg.no_input) started_run) "j1" "flaky" JsNull
                 Opt.empty 1001 (fun _ => 1001)))
         "j1" 1500) = true.
Proof.
  assert (Hk : keys_unique (jobs (run (newJobQueue Cfg.no_input) started_run)))
    by concrete_keys.
  destruct (@add_then_remove (run (newJobQueue Cfg.no_input) started_run) "j1"
              "flaky" JsNull Opt.empty 1001 1500 (fun _ => 1001) Hk)
    as (_ & _ & _ & _ & _ & _ & Hrunning & _).
  destruct (Hrunning eq_refl) as (_ & _ & Hremoved & _).
  exact Hremoved.
Defined.

Lemma backoff_schedule_witness :
  processAt
    (Nat.iter 3
       (fun j => settle (run (newJobQueue Cfg.no_input) started_run)
                   (claim j (processAt j)) TimedOut (processAt j))
       (fst (enqueue (run (newJobQueue Cfg.no_input) started_run) "j1" "flaky"
               JsNull Opt.empty 1001)))
  = 1001 + 5000 * 2 ^ 0 * (2 ^ 3 - 1).
Proof.
  destruct (@backoff_schedule (run (newJobQueue Cfg.no_input) started_run) TimedOut
              (fst (enqueue (run (newJobQueue Cfg.no_input) started_run) "j1"
                      "flaky" JsNull Opt.empty 1001))
              3 eq_refl (or_introl eq_refl) ltac:(vm_compute; lia))
    as (_ & _ & _ & _ & Hdue & _).
  exact Hdue.
Defined.

Lemma queue_jobs_handler_spec_witness :
  exists js, queue_jobs_handler one_queue None None None = Some js /\ js <> [].
Proof.
  pose proof (@queue_jobs_handler_spec one_queue None None None one_queue_default
                eq_refl) as [Hnone Hsome].
  destruct (queue_jobs_handler one_queue None None None) as [js|] eqn:E.
  - exists js. split; [reflexivity|]. exact (proj2 (Hsome js eq_refl)).
  - exfalso. destruct (proj1 Hnone eq_refl) as [H|H]; discriminate H.
Defined.
